(** * file-analytics: the bounded concurrent task-processing core

    A shallow embedding of
    - [internal/concurrency/stateful.go] (the stateful worker pool),
    - [internal/monitor] (the metrics collector),
    - [internal/processor/worker.go] (the request/response worker pool), and
    - [readLines] of [internal/processor/text.go] and [pkg/models/processor.go]
      (the line and word counter),
    with the properties the specification states about them and further
    properties of the same code.

    Goroutines are modelled by an interleaving semantics: every goroutine has
    a program point, and one [step] executes the statement at the program
    point of one goroutine.  A [select] with several ready cases takes any of
    them (the Go runtime polls the cases in random order); the case is part of
    the scheduling [action]. *)

From stdpp Require Import base tactics option list numbers strings.
From Stdlib Require Import ZArith Lia.
From Stdlib Require Strings.Byte.

(** ** Outcomes of one statement *)

Inductive panic_msg :=
| SendOnClosedChannel
| CloseOfClosedChannel
| NegativeWaitGroupCounter
| MakeSizeOutOfRange
| ProcessorPanic.

(** A statement completes ([Ok]), panics (an unrecovered panic ends the
    process), or cannot proceed yet ([Blocked]). *)
Inductive result (A : Type) : Type :=
| Ok (a : A)
| Panic (msg : panic_msg)
| Blocked.
Arguments Ok {A} a.
Arguments Panic {A} msg.
Arguments Blocked {A}.

Definition bind {A B} (r : result A) (k : A -> result B) : result B :=
  match r with
  | Ok a => k a
  | Panic m => Panic m
  | Blocked => Blocked
  end.

Notation "'let*' x := r 'in' k" := (bind r (fun x => k))
  (at level 10, x name, r at level 100, k at level 200).

(** ** 64-bit integers *)

Definition wrap64 (z : Z) : Z := ((z + 2 ^ 63) mod 2 ^ 64 - 2 ^ 63)%Z.
Definition wrapU64 (z : Z) : Z := (z mod 2 ^ 64)%Z.

(** Go's [/] on int64: truncated towards zero; the one overflowing quotient
    [MinInt64 / -1] wraps back to [MinInt64]. *)
Definition div64 (x y : Z) : Z := wrap64 (Z.quot x y).

(** ** Channels *)

Module Chan.

Record chan (A : Type) := MkChan { buf : list A; cap : nat; closed : bool }.
Arguments MkChan {A} buf cap closed.
Arguments buf {A} c.
Arguments cap {A} c.
Arguments closed {A} c.

(** [make(chan A, n)] *)
Definition make {A} (n : Z) : result (chan A) :=
  if (n <? 0)%Z then Panic MakeSizeOutOfRange
  else Ok (MkChan [] (Z.to_nat n) false).

(** [c <- v] through the buffer. *)
Definition send {A} (c : chan A) (v : A) : result (chan A) :=
  if closed c then Panic SendOnClosedChannel
  else if decide (length (buf c) < cap c)
       then Ok (MkChan (buf c ++ [v]) (cap c) (closed c))
       else Blocked.

(** [v, ok := <-c] from the buffer; [None] stands for [ok = false], on a
    closed and drained channel. *)
Definition recv_ok {A} (c : chan A) : result (option A * chan A) :=
  match buf c with
  | v :: b => Ok (Some v, MkChan b (cap c) (closed c))
  | [] => if closed c then Ok (None, c) else Blocked
  end.

(** [<-c]: a closed and drained channel yields the zero value of the
    element type. *)
Definition recv {A} (zero : A) (c : chan A) : result (A * chan A) :=
  let* r := recv_ok c in Ok (default zero r.1, r.2).

(** [select { case c <- v: default: }] *)
Definition try_send {A} (c : chan A) (v : A) : result (chan A) :=
  match send c v with
  | Blocked => Ok c
  | r => r
  end.

(** [c <- v] handed directly to a goroutine parked in a receive on [c]
    (the only way through an unbuffered channel). A receiver parks only
    on an open channel with an empty buffer. *)
Definition handoff {A} (c : chan A) : result unit :=
  if closed c then Panic SendOnClosedChannel
  else match buf c with
       | [] => Ok ()
       | _ :: _ => Blocked
       end.

(** [close(c)] *)
Definition close {A} (c : chan A) : result (chan A) :=
  if closed c then Panic CloseOfClosedChannel
  else Ok (MkChan (buf c) (cap c) true).

End Chan.
Import Chan.

(** ** internal/concurrency/stateful.go *)

Module concurrency.

(** [interface{}] values that travel through the pool; [Nil] is the zero
    value. *)
Inductive iface := Nil | IntV (z : Z).

#[global] Instance iface_eq_dec : EqDecision iface.
Proof. solve_decision. Defined.

Definition Time := Z.
Definition Duration := Z.

Inductive error := Canceled.

Record StatefulWorker := MkWorker { ID : Z; LastWork : Time; WorkCount : Z }.

Record StatefulPool := MkPool {
  workers : list StatefulWorker;
  tasks : chan iface;
  results : chan iface;
  done : chan unit;
  wg : nat;
  ctx_done : bool;
  rateLimiter : chan unit
}.

Record WorkerStats := MkStats { sID : Z; sLastWork : Time; sWorkCount : Z }.

Definition set_workers (p : StatefulPool) ws :=
  MkPool ws (tasks p) (results p) (done p) (wg p) (ctx_done p) (rateLimiter p).
Definition set_tasks (p : StatefulPool) c :=
  MkPool (workers p) c (results p) (done p) (wg p) (ctx_done p) (rateLimiter p).
Definition set_results (p : StatefulPool) c :=
  MkPool (workers p) (tasks p) c (done p) (wg p) (ctx_done p) (rateLimiter p).
Definition set_wg (p : StatefulPool) n :=
  MkPool (workers p) (tasks p) (results p) (done p) n (ctx_done p) (rateLimiter p).
Definition set_ctx_done (p : StatefulPool) b :=
  MkPool (workers p) (tasks p) (results p) (done p) (wg p) b (rateLimiter p).
Definition set_rateLimiter (p : StatefulPool) c :=
  MkPool (workers p) (tasks p) (results p) (done p) (wg p) (ctx_done p) c.

(** The initialisation loop of [NewStatefulPool], from index [i] for [n]
    more rounds: worker [i] is created with the clock reading [now i] and
    one permit is put into the limiter. *)
Fixpoint init_workers (now : nat -> Time) (i n : nat) (lim : chan unit)
  : result (list StatefulWorker * chan unit) :=
  match n with
  | O => Ok ([], lim)
  | S n' =>
      let* lim' := send lim () in
      let* r := init_workers now (S i) n' lim' in
      Ok (MkWorker (Z.of_nat i) (now i) 0 :: r.1, r.2)
  end.

Definition NewStatefulPool (nworkers queueSize : Z) (rateLimit : Duration)
    (now : nat -> Time) : result StatefulPool :=
  if (nworkers <? 0)%Z then Panic MakeSizeOutOfRange else
  let* tasks := make queueSize in
  let* results := make queueSize in
  let* done := make 0 in
  let* rateLimiter := make nworkers in
  let* r := init_workers now 0 (Z.to_nat nworkers) rateLimiter in
  Ok (MkPool r.1 tasks results done 0 false r.2).

Arguments NewStatefulPool (nworkers queueSize rateLimit)%_Z now.

(** Which ready case a [select] takes: its channel operation, or
    [<-p.ctx.Done()]. *)
Inductive branch := OnChan | OnDone.

(** [Submit]: the select completes through one of its two cases. The send
    case is here the send into the buffer of [p.tasks]; the send that is
    handed directly to a worker waiting in its receive (the only way through
    a queue without buffer) is the action [ASubmitTo] of [step] below. *)
Definition Submit (p : StatefulPool) (task : iface) (b : branch)
  : result (StatefulPool * option error) :=
  match b with
  | OnChan => let* c := send (tasks p) task in Ok (set_tasks p c, None)
  | OnDone => if ctx_done p then Ok (p, Some Canceled) else Blocked
  end.

(** Program points of [Stop]. *)
Inductive stop_pc :=
| StopIdle          (* not called *)
| StopCancelled     (* after p.cancel() *)
| StopWaiting       (* after close(p.tasks), in p.wg.Wait() *)
| StopWaited        (* p.wg.Wait() returned *)
| StopDone.         (* after close(p.results): returned *)

Definition Stop_step (p : StatefulPool) (pc : stop_pc)
  : result (StatefulPool * stop_pc) :=
  match pc with
  | StopIdle => Ok (set_ctx_done p true, StopCancelled)
  | StopCancelled => let* c := close (tasks p) in Ok (set_tasks p c, StopWaiting)
  | StopWaiting => match wg p with O => Ok (p, StopWaited) | S _ => Blocked end
  | StopWaited => let* c := close (results p) in Ok (set_results p c, StopDone)
  | StopDone =>
      (* a second call: cancel() is idempotent, close(p.tasks) is next *)
      let* c := close (tasks p) in Ok (set_tasks p c, StopWaiting)
  end.

(** Program points of the goroutine [runWorker]. *)
Inductive worker_pc :=
| AtOuter                 (* outer select: ctx.Done or a permit *)
| AtInner                 (* inner select: a task or ctx.Done; holds a permit *)
| AtUpdate (task : iface) (* worker.mu.Lock() ... worker.mu.Unlock() *)
| AtProcess (task : iface)(* result := p.processTask(worker, task) *)
| AtPublish (res : iface) (* p.results <- result *)
| AtRelease               (* p.rateLimiter <- struct{}{} *)
| Exited.                 (* returned; the deferred p.wg.Done() has run *)

Definition processTask (w : StatefulWorker) (task : iface) : iface := task.

(** The deferred [p.wg.Done()]. *)
Definition wg_Done (p : StatefulPool) : result StatefulPool :=
  match wg p with
  | O => Panic NegativeWaitGroupCounter
  | S n => Ok (set_wg p n)
  end.

Definition on_done (p : StatefulPool) : result (StatefulPool * worker_pc) :=
  if ctx_done p then (let* p' := wg_Done p in Ok (p', Exited)) else Blocked.

(** One statement of [runWorker(id, worker)], [worker] being
    [p.workers[id]]. *)
Definition runWorker_step (p : StatefulPool) (id : nat) (pc : worker_pc)
    (b : branch) (now : Time) : result (StatefulPool * worker_pc) :=
  match pc with
  | AtOuter =>
      match b with
      | OnDone => on_done p
      | OnChan => let* r := recv () (rateLimiter p) in
                  Ok (set_rateLimiter p r.2, AtInner)
      end
  | AtInner =>
      match b with
      | OnChan => let* r := recv Nil (tasks p) in Ok (set_tasks p r.2, AtUpdate r.1)
      | OnDone => on_done p
      end
  | AtUpdate task =>
      match workers p !! id with
      | Some w =>
          let w' := MkWorker (ID w) now (wrap64 (WorkCount w + 1)) in
          Ok (set_workers p (<[id := w']> (workers p)), AtProcess task)
      | None => Blocked
      end
  | AtProcess task =>
      match workers p !! id with
      | Some w => Ok (p, AtPublish (processTask w task))
      | None => Blocked
      end
  | AtPublish res => let* c := send (results p) res in Ok (set_results p c, AtRelease)
  | AtRelease => let* c := send (rateLimiter p) () in Ok (set_rateLimiter p c, AtOuter)
  | Exited => Blocked
  end.

Definition GetWorkerStats (p : StatefulPool) : list WorkerStats :=
  (fun w => MkStats (ID w) (LastWork w) (WorkCount w)) <$> workers p.

Definition Results (p : StatefulPool) : chan iface := results p.

(** *** The pool together with its goroutines and its clients

    [goroutines] holds the program point of [runWorker(i, _)] at index [i]
    (empty before [Start]); [accepted] logs the tasks for which [Submit]
    returned nil, [delivered] the values the consumer has received from
    [Results()].  Clients follow the life cycle of the pool: [Start] is
    called once, and [Stop] on a started pool. *)
Record World := MkWorld {
  pool : StatefulPool;
  goroutines : list worker_pc;
  started : bool;
  stop : stop_pc;
  accepted : list iface;
  delivered : list iface
}.

Definition created (p : StatefulPool) : World := MkWorld p [] false StopIdle [] [].

Inductive action :=
| AStart                                          (* p.Start() *)
| ASubmit (task : iface) (b : branch)             (* p.Submit(task) completes *)
| ASubmitTo (task : iface) (i : nat)              (* ... by hand-off to worker i *)
| AStop                                           (* next statement of p.Stop() *)
| AWorker (i : nat) (b : branch) (now : Time)     (* next statement of worker i *)
| APublishTo (i : nat)                            (* worker i hands its result to the consumer *)
| AReceive.                                       (* the consumer receives from Results() *)

Arguments AWorker i b now%_Z.

(** [Start]: one [wg.Add(1)] and one goroutine per worker. *)
Definition Start (p : StatefulPool) : StatefulPool * list worker_pc :=
  (set_wg p (wg p + length (workers p)), (fun _ => AtOuter) <$> workers p).

Definition step (w : World) (a : action) : result World :=
  let p := pool w in
  match a with
  | AStart =>
      if started w then Blocked
      else let r := Start p in
           Ok (MkWorld r.1 r.2 true (stop w) (accepted w) (delivered w))
  | ASubmit task b =>
      let* r := Submit p task b in
      Ok (MkWorld r.1 (goroutines w) (started w) (stop w)
            (match r.2 with None => accepted w ++ [task] | Some _ => accepted w end)
            (delivered w))
  | ASubmitTo task i =>
      match goroutines w !! i with
      | Some AtInner =>
          let* _ := handoff (tasks p) in
          Ok (MkWorld p (<[i := AtUpdate task]> (goroutines w)) (started w) (stop w)
                (accepted w ++ [task]) (delivered w))
      | _ => Blocked
      end
  | AStop =>
      if started w then
        let* r := Stop_step p (stop w) in
        Ok (MkWorld r.1 (goroutines w) (started w) r.2 (accepted w) (delivered w))
      else Blocked
  | AWorker i b now =>
      match goroutines w !! i with
      | Some pc =>
          let* r := runWorker_step p i pc b now in
          Ok (MkWorld r.1 (<[i := r.2]> (goroutines w)) (started w) (stop w)
                (accepted w) (delivered w))
      | None => Blocked
      end
  | APublishTo i =>
      match goroutines w !! i with
      | Some (AtPublish res) =>
          let* _ := handoff (results p) in
          Ok (MkWorld p (<[i := AtRelease]> (goroutines w)) (started w) (stop w)
                (accepted w) (delivered w ++ [res]))
      | _ => Blocked
      end
  | AReceive =>
      match buf (results p) with
      | v :: b =>
          Ok (MkWorld (set_results p (MkChan b (cap (results p)) (closed (results p))))
                (goroutines w) (started w) (stop w) (accepted w) (delivered w ++ [v]))
      | [] => if closed (results p) then Ok w else Blocked
      end
  end.

Fixpoint run (w : World) (tr : list action) : result World :=
  match tr with
  | [] => Ok w
  | a :: tr' => let* w' := step w a in run w' tr'
  end.

(** *** Counting over the goroutines and the workers *)

Fixpoint sum_with {A} (f : A -> Z) (l : list A) : Z :=
  match l with
  | [] => 0
  | x :: l' => f x + sum_with f l'
  end%Z.

(** Occurrences of [t] in a list of values. *)
Definition occ (t : iface) (l : list iface) : Z :=
  sum_with (fun x => if decide (x = t) then 1 else 0)%Z l.

(** The worker holds a permit of the rate limiter. *)
Definition holding (pc : worker_pc) : Z :=
  match pc with
  | AtInner | AtUpdate _ | AtProcess _ | AtPublish _ | AtRelease => 1
  | AtOuter | Exited => 0
  end.

(** The goroutine has not returned. *)
Definition live (pc : worker_pc) : Z :=
  match pc with Exited => 0 | _ => 1 end.

(** The task the worker has pulled and not yet published. *)
Definition carrying (pc : worker_pc) : list iface :=
  match pc with
  | AtUpdate t | AtProcess t | AtPublish t => [t]
  | _ => []
  end.

Definition busy (pc : worker_pc) : bool :=
  match pc with
  | AtUpdate _ | AtProcess _ | AtPublish _ => true
  | _ => false
  end.

(** The worker has counted its task in [WorkCount] and not yet published
    the result. *)
Definition counted (pc : worker_pc) : Z :=
  match pc with AtProcess _ | AtPublish _ => 1 | _ => 0 end.

(** Results produced on the outbound channel: still buffered, or already
    received by the consumer. *)
Definition produced (w : World) : Z :=
  (Z.of_nat (length (buf (results (pool w)))) + Z.of_nat (length (delivered w)))%Z.

(** No task is being processed. *)
Definition quiescent (w : World) : Prop :=
  Forall (fun pc => busy pc = false) (goroutines w).

Definition cancelled_at (s : stop_pc) : bool :=
  match s with StopIdle => false | _ => true end.
Definition tasks_closed_at (s : stop_pc) : bool :=
  match s with StopIdle | StopCancelled => false | _ => true end.
Definition results_closed_at (s : stop_pc) : bool :=
  match s with StopDone => true | _ => false end.
Definition waited_at (s : stop_pc) : bool :=
  match s with StopWaited | StopDone => true | _ => false end.

(** A world that a pool of [n] workers can reach. *)
Definition reachable (nworkers queueSize : Z) (w : World) : Prop :=
  exists rateLimit now p tr,
    NewStatefulPool nworkers queueSize rateLimit now = Ok p /\
    run (created p) tr = Ok w.

(** The invariant of the worlds of a pool of [n] workers. *)
Record Inv (n : nat) (w : World) : Prop := MkInv {
  inv_workers : length (workers (pool w)) = n;
  inv_goroutines : length (goroutines w) = if started w then n else 0;
  inv_lim_cap : cap (rateLimiter (pool w)) = n;
  inv_lim_open : closed (rateLimiter (pool w)) = false;
  inv_wg : Z.of_nat (wg (pool w)) = sum_with live (goroutines w);
  inv_permits :
    (Z.of_nat (length (buf (rateLimiter (pool w)))) + sum_with holding (goroutines w)
     <= Z.of_nat n)%Z;
  inv_permits_running :
    ctx_done (pool w) = false ->
    (Z.of_nat (length (buf (rateLimiter (pool w)))) + sum_with holding (goroutines w)
     = Z.of_nat n)%Z;
  inv_live :
    ctx_done (pool w) = false ->
    sum_with live (goroutines w) = Z.of_nat (length (goroutines w));
  inv_created : started w = false -> stop w = StopIdle;
  inv_ctx : ctx_done (pool w) = cancelled_at (stop w);
  inv_tasks_closed : closed (tasks (pool w)) = tasks_closed_at (stop w);
  inv_results_closed : closed (results (pool w)) = results_closed_at (stop w);
  inv_waited : waited_at (stop w) = true -> sum_with live (goroutines w) = 0%Z;
  inv_conserve :
    stop w = StopIdle -> forall t,
    (occ t (accepted w)
     = occ t (buf (tasks (pool w))) + sum_with (fun pc => occ t (carrying pc)) (goroutines w)
       + occ t (buf (results (pool w))) + occ t (delivered w))%Z;
  inv_counts :
    wrap64 (sum_with WorkCount (workers (pool w)))
    = wrap64 (produced w + sum_with counted (goroutines w));
  inv_counts_exact :
    (produced w + sum_with counted (goroutines w) < 2 ^ 63)%Z ->
    Forall (fun x => 0 <= WorkCount x)%Z (workers (pool w)) /\
    (sum_with WorkCount (workers (pool w))
     = produced w + sum_with counted (goroutines w))%Z
}.

(** Permits available in the limiter or held by a worker goroutine. *)
Definition permits_in_circulation (w : World) : Z :=
  (Z.of_nat (length (buf (rateLimiter (pool w)))) + sum_with holding (goroutines w))%Z.

(** *** What a worker does, as a sequence of events *)

Inductive wevent :=
| EAcquire    (* took a permit from the rate limiter *)
| EPull       (* received a task from the inbound queue *)
| EUpdate     (* updated LastWork and WorkCount under its lock *)
| EExecute    (* ran processTask *)
| EPublish    (* sent the result to the outbound queue *)
| ERelease    (* returned the permit *)
| EExit.      (* returned on cancellation *)

#[global] Instance wevent_eq_dec : EqDecision wevent.
Proof. solve_decision. Defined.









(** *** Progress of the pool *)

(** Actions of the worker goroutines and of the consumer of [Results()]. *)
Definition pool_or_consumer (a : action) : bool :=
  match a with
  | AWorker _ _ _ | APublishTo _ | AReceive => true
  | _ => false
  end.

(** Actions of the consumer of [Results()]. *)
Definition consumer (a : action) : bool :=
  match a with
  | APublishTo _ | AReceive => true
  | _ => false
  end.

(** Actions of [Stop], of the worker goroutines and of the consumer. *)
Definition shutdown_action (a : action) : bool :=
  match a with
  | AStop | AWorker _ _ _ | APublishTo _ | AReceive => true
  | _ => false
  end.

(** Statements a worker at [pc] still executes for the task it has, plus
    one for reaching the inner select. *)
Definition weight (pc : worker_pc) : Z :=
  match pc with
  | AtOuter => 1
  | AtInner => 0
  | AtUpdate _ => 6
  | AtProcess _ => 5
  | AtPublish _ => 4
  | AtRelease => 2
  | Exited => 0
  end.

(** An upper bound of the worker and consumer steps left before every
    queued task has been delivered. *)
Definition remaining_work (w : World) : Z :=
  (7 * Z.of_nat (length (buf (tasks (pool w))))
   + sum_with weight (goroutines w)
   + Z.of_nat (length (buf (results (pool w)))))%Z.

(** No worker goroutine and no consumer can take a step. *)
Definition at_rest (w : World) : Prop :=
  forall a, pool_or_consumer a = true -> step w a = Blocked.

(** *** Shutdown *)

(** What is left of the loop of worker [i], once cancelled, when its result
    is handed to the consumer: the schedule that takes it from [pc] to its
    return. *)
Definition finish_worker (pc : worker_pc) (i : nat) : list action :=
  match pc with
  | AtOuter | AtInner => [AWorker i OnDone 0]
  | AtUpdate _ =>
      [AWorker i OnChan 0; AWorker i OnChan 0; APublishTo i; AWorker i OnChan 0;
       AWorker i OnDone 0]
  | AtProcess _ =>
      [AWorker i OnChan 0; APublishTo i; AWorker i OnChan 0; AWorker i OnDone 0]
  | AtPublish _ => [APublishTo i; AWorker i OnChan 0; AWorker i OnDone 0]
  | AtRelease => [AWorker i OnChan 0; AWorker i OnDone 0]
  | Exited => []
  end.

Fixpoint finish_from (i : nat) (pcs : list worker_pc) : list action :=
  match pcs with
  | [] => []
  | pc :: rest => finish_worker pc i ++ finish_from (S i) rest
  end.

(** A schedule of [Stop], the workers and the consumer that completes
    [Stop]: [Stop] cancels and closes the inbound queue, the consumer empties
    the outbound queue, every worker returns, [Stop] stops waiting and closes
    the outbound queue. *)
Definition shutdown_schedule (w : World) : list action :=
  match stop w with
  | StopDone => []
  | StopWaited => [AStop]
  | s =>
      match s with StopIdle => [AStop; AStop] | StopCancelled => [AStop] | _ => [] end
      ++ replicate (length (buf (results (pool w)))) AReceive
      ++ finish_from 0 (goroutines w)
      ++ [AStop; AStop]
  end.

(** The single worker is about to publish [v], the outbound queue is full,
    and [Stop] has not got past its wait. *)
Definition publisher_stuck (v : iface) (w : World) : Prop :=
  goroutines w = [AtPublish v] /\
  cap (results (pool w)) <= length (buf (results (pool w))) /\
  closed (results (pool w)) = false /\
  wg (pool w) = 1 /\ started w = true /\
  stop w <> StopWaited /\ stop w <> StopDone.

(** *** Worlds used as examples *)

Definition clock0 : nat -> Time := fun _ => 0%Z.

(** The world of [NewStatefulPool(nworkers, queueSize, rateLimit)] after the
    run [tr]. *)
Definition world_after (nworkers queueSize : Z) (rateLimit : Duration)
    (tr : list action) : result World :=
  let* p := NewStatefulPool nworkers queueSize rateLimit clock0 in
  run (created p) tr.

Arguments world_after (nworkers queueSize rateLimit)%_Z tr.

(** The run of [TestStatefulPoolGracefulShutdown] up to the return of
    [Stop()]; both workers see the cancellation at their first select. *)
Definition graceful_shutdown_run : list action :=
  [AStart;
   ASubmit (IntV 0) OnChan; ASubmit (IntV 1) OnChan; ASubmit (IntV 2) OnChan;
   ASubmit (IntV 3) OnChan; ASubmit (IntV 4) OnChan;
   AStop; AWorker 0 OnDone 0; AWorker 1 OnDone 0; AStop; AStop; AStop].



(** What a shutdown step keeps. *)
Record same_queues (w w' : World) : Prop := MkSame {
  same_stop : stop w' = stop w;
  same_results : buf (results (pool w')) = buf (results (pool w));
  same_started : started w' = started w
}.

(** The hypotheses under which workers are driven to their return. *)
Record draining (n : nat) (w : World) : Prop := MkDraining {
  dr_inv : Inv n w;
  dr_stop : stop w = StopWaiting;
  dr_results : buf (results (pool w)) = [];
  dr_started : started w = true
}.

(** One worker, an outbound queue of one slot, two tasks, nobody reading:
    the first result fills the queue, the worker arrives at the send of the
    second. *)
Definition abandoned_consumer_run : list action :=
  [AStart; ASubmit (IntV 1) OnChan;
   AWorker 0 OnChan 0; AWorker 0 OnChan 0; ASubmit (IntV 2) OnChan;
   AWorker 0 OnChan 0; AWorker 0 OnChan 0; AWorker 0 OnChan 0; AWorker 0 OnChan 0;
   AWorker 0 OnChan 0; AWorker 0 OnChan 0; AWorker 0 OnChan 0; AWorker 0 OnChan 0].

(** One task through a pool of one worker: submitted, served, received. *)
Definition work_cycle : list action :=
  [ASubmit (IntV 0) OnChan;
   AWorker 0 OnChan 0; AWorker 0 OnChan 0; AWorker 0 OnChan 0;
   AWorker 0 OnChan 0; AWorker 0 OnChan 0; AWorker 0 OnChan 0;
   AReceive].

(** The world of [NewStatefulPool(1, 1, _)], started, after [k] cycles. *)
Definition idle_world (count : Z) (acc del : list iface) : World :=
  MkWorld
    (MkPool [MkWorker 0%Z 0%Z count]
       (MkChan [] 1 false) (MkChan [] 1 false) (MkChan [] 0 false)
       1 false (MkChan [()] 1 false))
    [AtOuter] true StopIdle acc del.

Definition cycled (k : nat) : World :=
  idle_world (wrap64 (Z.of_nat k)) (replicate k (IntV 0)) (replicate k (IntV 0)).

(** Two workers serve three tasks, worker 0 the first and the third; the
    consumer has received the first result. *)
Definition three_tasks_run : list action :=
  [AStart; ASubmit (IntV 0) OnChan; ASubmit (IntV 1) OnChan; ASubmit (IntV 2) OnChan]
  ++ replicate 6 (AWorker 0 OnChan 0) ++ replicate 6 (AWorker 1 OnChan 0)
  ++ replicate 6 (AWorker 0 OnChan 0) ++ [AReceive].

End concurrency.

(** ** internal/monitor: the metrics collector *)

Module monitor.

Definition Duration := Z.

(** [processed] and [errors] are [atomic.Uint64], [duration] is
    [atomic.Int64]. *)
Record MetricsCollector := MkMetrics { processed : Z; errors : Z; duration : Z }.

Definition wf (m : MetricsCollector) : Prop :=
  (0 <= processed m < 2 ^ 64 /\ 0 <= errors m < 2 ^ 64 /\
   - 2 ^ 63 <= duration m < 2 ^ 63)%Z.

Definition NewMetricsCollector (reportInterval : Duration) : MetricsCollector :=
  MkMetrics 0 0 0.

Definition IncrementProcessed (m : MetricsCollector) : MetricsCollector :=
  MkMetrics (wrapU64 (processed m + 1)) (errors m) (duration m).

Definition IncrementErrors (m : MetricsCollector) : MetricsCollector :=
  MkMetrics (processed m) (wrapU64 (errors m + 1)) (duration m).

Definition AddDuration (m : MetricsCollector) (d : Duration) : MetricsCollector :=
  MkMetrics (processed m) (errors m) (wrap64 (duration m + d)).

(** [time.Duration(processed)] converts the uint64 to int64. *)
Definition GetMetrics (m : MetricsCollector) : Z * Z * Duration :=
  let processed := processed m in
  let errors := errors m in
  let avgDuration :=
    if (processed >? 0)%Z
    then div64 (duration m) (wrap64 processed)
    else 0%Z in
  (processed, errors, avgDuration).

(** A call of one of the three updating methods. *)
Inductive call :=
| CallIncrementProcessed
| CallIncrementErrors
| CallAddDuration (d : Duration).

Definition apply_call (m : MetricsCollector) (c : call) : MetricsCollector :=
  match c with
  | CallIncrementProcessed => IncrementProcessed m
  | CallIncrementErrors => IncrementErrors m
  | CallAddDuration d => AddDuration m d
  end.

(** The collector after the calls [cs], in this order. *)
Definition after_calls (m : MetricsCollector) (cs : list call) : MetricsCollector :=
  foldl apply_call m cs.

Definition processed_calls (cs : list call) : Z :=
  Z.of_nat (length (List.filter (fun c => match c with CallIncrementProcessed => true | _ => false end) cs)).
Definition error_calls (cs : list call) : Z :=
  Z.of_nat (length (List.filter (fun c => match c with CallIncrementErrors => true | _ => false end) cs)).
Fixpoint total_duration (cs : list call) : Z :=
  match cs with
  | [] => 0
  | CallAddDuration d :: cs' => d + total_duration cs'
  | _ :: cs' => total_duration cs'
  end%Z.

End monitor.

(** ** internal/processor/worker.go *)

Module processor.

Inductive error := ProcessError (msg : string).

Record FileInfo := MkFileInfo {
  Path : string; Size : Z; Modified : Z; Processed : Z; Type_ : string
}.

Record ProcessResult := MkResult {
  Info : FileInfo;
  Lines : Z; Words : Z; Bytes : Z;
  Error : option error;
  Duration : Z
}.

(** What a call of [Processor.Process] does: it returns a result and
    possibly an error, or it panics. *)
Inductive outcome :=
| Returns (result : ProcessResult) (err : option error)
| Panics.

Definition Processor := string -> outcome.

Record WorkRequest := MkRequest {
  FilePath : string;
  ResponseChan : chan ProcessResult
}.

Record WorkerPool := MkWorkerPool {
  size : Z;
  requests : chan WorkRequest;
  done : chan unit;
  errors : chan error
}.

(** How one round of the loop of [worker] ends. *)
Inductive round :=
| Served (response : chan ProcessResult)  (* the request was processed; next round *)
| Returned.                               (* the goroutine returned *)

(** The deferred function of [worker]. *)
Definition deferred (p : WorkerPool) (id : Z) : result WorkerPool :=
  if (id =? 0)%Z
  then let* d := close (done p) in
       Ok (MkWorkerPool (size p) (requests p) d (errors p))
  else Ok p.

(** One round of [for req := range p.requests] in [worker(ctx, id)];
    [ctx_done] tells whether [ctx.Done()] is ready in this round. A panic of
    the processor is not recovered: it leaves the loop and the goroutine. *)
Definition worker_round (process : Processor) (ctx_done : bool) (id : Z)
    (p : WorkerPool) : result (WorkerPool * round) :=
  let* r := recv_ok (requests p) in
  match r.1 with
  | None => let* p' := deferred p id in Ok (p', Returned)
  | Some req =>
      let p1 := MkWorkerPool (size p) r.2 (done p) (errors p) in
      if ctx_done then let* p' := deferred p1 id in Ok (p', Returned)
      else
        match process (FilePath req) with
        | Panics => Panic ProcessorPanic
        | Returns result err =>
            let* errs :=
              match err with
              | Some e => try_send (errors p1) e
              | None => Ok (errors p1)
              end in
            let* resp := try_send (ResponseChan req) result in
            let* resp' := close resp in
            Ok (MkWorkerPool (size p1) (requests p1) (done p1) errs, Served resp')
        end
  end.

(** [Submit] makes the response channel of a request. *)
Definition new_request (path : string) : WorkRequest :=
  MkRequest path (MkChan [] 1 false).

(** A processor that fails on one file and panics on another. *)
Definition sample_processor : Processor := fun path =>
  if String.eqb path "missing.txt"
  then Returns (MkResult (MkFileInfo path 0 0 0 "") 0 0 0 (Some (ProcessError "open")) 0)
         (Some (ProcessError "open"))
  else if String.eqb path "bad.txt" then Panics
  else Returns (MkResult (MkFileInfo path 12 0 0 "text") 1 2 12 None 5) None.

Definition sample_pool (paths : list string) : WorkerPool :=
  MkWorkerPool 1 (MkChan (new_request <$> paths) 2 false) (MkChan [] 0 false)
    (MkChan [] 1 false).

(** [NewWorkerPool(size, processor)]; the processor is passed to the worker
    separately. *)
Definition NewWorkerPool (size : Z) : result WorkerPool :=
  let size := if (size <=? 0)%Z then 1%Z else size in
  let* requests := make (wrap64 (size * 2)) in
  let* done := make 0 in
  let* errors := make size in
  Ok (MkWorkerPool size requests done errors).

(** The case through which the select of [Submit] completes: the send of the
    request, or the five seconds of [time.After]. *)
Inductive submit_case := SendRequest | TimedOut.

(** [Submit(path)]: the response channel, or [None] for the timeout error. *)
Definition Submit (p : WorkerPool) (path : string) (c : submit_case)
  : result (WorkerPool * option (chan ProcessResult)) :=
  let responseChan := MkChan [] 1 false in
  match c with
  | SendRequest =>
      let* rs := send (requests p) (MkRequest path responseChan) in
      Ok (MkWorkerPool (size p) rs (done p) (errors p), Some responseChan)
  | TimedOut => Ok (p, None)
  end.

(** The two statements of [Stop]: [close(p.requests)] and [<-p.done]. *)
Definition Stop_close (p : WorkerPool) : result WorkerPool :=
  let* rs := close (requests p) in
  Ok (MkWorkerPool (size p) rs (done p) (errors p)).

Definition Stop_wait (p : WorkerPool) : result unit :=
  let* r := recv_ok (done p) in Ok ().

(** The loop of [worker(ctx, id)], round after round; [ctx k] tells whether
    the context is done when the worker has served [k] requests. [None]: more
    than [fuel] rounds. The responses are listed in the order served. *)
Fixpoint worker_loop (fuel : nat) (process : Processor) (ctx : nat -> bool) (id : Z)
    (p : WorkerPool) (served : list (chan ProcessResult))
  : option (result (WorkerPool * list (chan ProcessResult))) :=
  match fuel with
  | O => None
  | S fuel' =>
      match worker_round process (ctx (length served)) id p with
      | Ok (p', Served resp) => worker_loop fuel' process ctx id p' (served ++ [resp])
      | Ok (p', Returned) => Some (Ok (p', served))
      | Panic m => Some (Panic m)
      | Blocked => Some Blocked
      end
  end.

(** The response the worker leaves for a request: the result in a closed
    channel. *)
Definition response_to (process : Processor) (path : string) : option (chan ProcessResult) :=
  match process path with
  | Returns result _ => Some (MkChan [result] 1 true)
  | Panics => None
  end.

Definition error_of (process : Processor) (path : string) : option error :=
  match process path with
  | Returns _ err => err
  | Panics => None
  end.

(** The error channel after the non-blocking send of the error, if any, of
    each of [paths]. *)
Definition errors_after (process : Processor) (c : chan error) (paths : list string)
  : chan error :=
  foldl (fun c path =>
           match error_of process path with
           | Some e =>
               if decide (length (buf c) < cap c)
               then MkChan (buf c ++ [e]) (cap c) false else c
           | None => c
           end) c paths.

(** *** readLines (text.go, and models/processor.go with its own buffer size)

    The counters are Go [int]s, taken to be 64 bits wide. *)
Record scan := MkScan { lines : Z; words : Z; nbytes : Z; inWord : bool }.

Definition is_blank (b : Byte.byte) : bool :=
  Byte.eqb b Byte.x20 || Byte.eqb b Byte.x0a || Byte.eqb b Byte.x09.

(** The body of the loop over the bytes of the buffer. *)
Definition scan_byte (s : scan) (b : Byte.byte) : scan :=
  let lines := if Byte.eqb b Byte.x0a then wrap64 (lines s + 1) else lines s in
  if is_blank b then MkScan lines (words s) (nbytes s) false
  else if inWord s then MkScan lines (words s) (nbytes s) true
  else MkScan lines (wrap64 (words s + 1)) (nbytes s) true.

(** One [Read] that returns [chunk] and no error: [bytes += count], then the
    loop over [buf[:count]]. *)
Definition scan_chunk (s : scan) (chunk : list Byte.byte) : scan :=
  foldl scan_byte
    (MkScan (lines s) (words s) (wrap64 (nbytes s + Z.of_nat (length chunk))) (inWord s))
    chunk.

(** How the reads end: [io.EOF], or another error. Bytes that a [Read]
    returns together with an error are not looked at. *)
Inductive read_end := EOF | ReadError (e : error).

(** [readLines] on a reader whose successive calls of [Read] return
    [chunks], and then [fin]. *)
Definition readLines (chunks : list (list Byte.byte)) (fin : read_end)
  : Z * Z * Z * option error :=
  let s := foldl scan_chunk (MkScan 0 0 0 false) chunks in
  match fin with
  | ReadError e => (lines s, words s, nbytes s, Some e)
  | EOF =>
      let lines :=
        if (nbytes s >? 0)%Z && negb (inWord s) then wrap64 (lines s + 1) else lines s in
      (lines, words s, nbytes s, None)
  end.

(** The number of newline bytes. *)
Definition newlines (content : list Byte.byte) : Z :=
  Z.of_nat (length (List.filter (fun b => Byte.eqb b Byte.x0a) content)).

(** The number of bytes that start a word: a byte that is not blank, at the
    start of the content or after a blank byte. [prev] is the byte before the
    content. *)
Definition word_starts_after (prev : Byte.byte) (content : list Byte.byte) : Z :=
  Z.of_nat (length (List.filter (fun pb : Byte.byte * Byte.byte => is_blank pb.1 && negb (is_blank pb.2))
                      (zip (prev :: content) content))).

Definition word_starts (content : list Byte.byte) : Z := word_starts_after Byte.x20 content.

Definition ends_blank (content : list Byte.byte) : bool :=
  match last content with
  | Some b => is_blank b
  | None => false
  end.

End processor.

(** * Properties *)

(** ** 64-bit arithmetic *)

Lemma wrap64_small z : (- 2 ^ 63 <= z < 2 ^ 63)%Z -> wrap64 z = z.
Proof. intros H. unfold wrap64. rewrite Z.mod_small; lia. Qed.

Lemma wrap64_add_r a b : wrap64 (a + wrap64 b) = wrap64 (a + b).
Proof.
  unfold wrap64. f_equal.
  replace (a + ((b + 2 ^ 63) mod 2 ^ 64 - 2 ^ 63) + 2 ^ 63)%Z
    with (a + (b + 2 ^ 63) mod 2 ^ 64)%Z by lia.
  rewrite Zplus_mod_idemp_r. f_equal. lia.
Qed.

Lemma wrap64_shift a b c : wrap64 a = wrap64 b -> wrap64 (a + c) = wrap64 (b + c).
Proof.
  intros H. rewrite (Z.add_comm a c), (Z.add_comm b c).
  rewrite <- (wrap64_add_r c a), <- (wrap64_add_r c b). now rewrite H.
Qed.

Lemma wrap64_incr S x T :
  wrap64 S = wrap64 T -> wrap64 (S - x + wrap64 (x + 1)) = wrap64 (T + 1).
Proof.
  intros H. rewrite wrap64_add_r.
  replace (S - x + (x + 1))%Z with (S + 1)%Z by lia. now apply wrap64_shift.
Qed.

(** ** The stateful pool *)

Module StatefulPoolFacts.
Import concurrency.

Lemma sum_with_app {A} (f : A -> Z) l1 l2 :
  sum_with f (l1 ++ l2) = (sum_with f l1 + sum_with f l2)%Z.
Proof. induction l1 as [|x l1 IH]; simpl; lia. Qed.

Lemma sum_with_insert {A} (f : A -> Z) (l : list A) i x y :
  l !! i = Some y ->
  sum_with f (<[i := x]> l) = (sum_with f l - f y + f x)%Z.
Proof.
  revert i; induction l as [|a l IH]; intros [|i] Hi; simplify_eq/=; try lia.
  rewrite (IH i Hi). lia.
Qed.

Lemma sum_with_fmap_const {A B} (f : B -> Z) (g : A -> B) (c : Z) (l : list A) :
  (forall a, f (g a) = c) ->
  sum_with f (g <$> l) = (c * Z.of_nat (length l))%Z.
Proof.
  intros Hc. induction l as [|a l IH]; [simpl; lia|].
  rewrite fmap_cons. cbn [sum_with length]. rewrite Hc, IH. lia.
Qed.

Lemma sum_with_lookup_le {A} (f : A -> Z) (l : list A) i y :
  Forall (fun x => 0 <= f x)%Z l -> l !! i = Some y -> (f y <= sum_with f l)%Z.
Proof.
  intros HF; revert i; induction HF as [|a l Ha HF IH]; intros [|i] Hi;
    simplify_eq/=.
  - clear IH. induction HF; simpl; lia.
  - specialize (IH i Hi). lia.
Qed.

Lemma sum_with_zero_live l :
  sum_with live l = 0%Z -> Forall (fun pc => pc = Exited) l.
Proof.
  assert (Hnn : forall l', (0 <= sum_with live l')%Z).
  { induction l' as [|pc l' IH]; simpl; [lia|]. destruct pc; simpl; lia. }
  induction l as [|pc l IH]; simpl; intros H; constructor.
  - specialize (Hnn l). destruct pc; simpl in H; auto; lia.
  - apply IH. specialize (Hnn l). destruct pc; simpl in H; lia.
Qed.

Lemma occ_app t l1 l2 : occ t (l1 ++ l2) = (occ t l1 + occ t l2)%Z.
Proof. apply sum_with_app. Qed.

Lemma occ_cons t x l : occ t (x :: l) = ((if decide (x = t) then 1 else 0) + occ t l)%Z.
Proof. reflexivity. Qed.

Lemma init_workers_inv now n : forall i lim ws lim',
  init_workers now i n lim = Ok (ws, lim') ->
  length ws = n /\ buf lim' = buf lim ++ replicate n () /\ cap lim' = cap lim /\
  closed lim' = closed lim /\ Forall (fun x => WorkCount x = 0%Z) ws.
Proof.
  induction n as [|n IH]; intros i lim ws lim' H; simpl in H.
  - simplify_eq. simpl. rewrite app_nil_r. auto.
  - unfold bind in H. destruct (send lim ()) as [lim1| |] eqn:Hs; try discriminate.
    destruct (init_workers now (S i) n lim1) as [[ws1 lim2]| |] eqn:Hr; try discriminate.
    simplify_eq/=. destruct (IH _ _ _ _ Hr) as (Hl & Hb & Hc & Hcl & HF).
    unfold send in Hs. repeat case_match; simplify_eq/=.
    rewrite Hb, <- app_assoc. repeat split; auto.
Qed.

Lemma init_workers_total now n : forall i lim,
  closed lim = false -> length (buf lim) + n <= cap lim ->
  exists r, init_workers now i n lim = Ok r.
Proof.
  induction n as [|n IH]; intros i lim Hc Hl; simpl; [eauto|].
  unfold send. rewrite Hc. destruct (decide _) as [|]; [|lia]. simpl.
  edestruct (IH (S i)) as [r ->]; simpl; eauto.
  rewrite length_app. simpl. lia.
Qed.

Lemma NewStatefulPool_total nworkers queueSize rateLimit now :
  (0 <= nworkers)%Z -> (0 <= queueSize)%Z ->
  exists p, NewStatefulPool nworkers queueSize rateLimit now = Ok p.
Proof.
  intros Hw Hq. unfold NewStatefulPool, make.
  destruct (nworkers <? 0)%Z eqn:E1; [lia|].
  destruct (queueSize <? 0)%Z eqn:E2; [lia|]. simpl.
  edestruct (init_workers_total now (Z.to_nat nworkers) 0
               (MkChan [] (Z.to_nat nworkers) false)) as [r ->]; simpl; eauto.
Qed.

Lemma sum_with_zero {A} (f : A -> Z) l :
  Forall (fun x => f x = 0%Z) l -> sum_with f l = 0%Z.
Proof. induction 1; simpl; lia. Qed.

Lemma created_inv nworkers queueSize rateLimit now p :
  NewStatefulPool nworkers queueSize rateLimit now = Ok p ->
  Inv (Z.to_nat nworkers) (created p).
Proof.
  unfold NewStatefulPool, make, bind. intros H.
  repeat case_match; simplify_eq/=.
  match goal with H : init_workers _ _ _ _ = Ok ?r |- _ =>
    destruct r as [ws lim]; apply init_workers_inv in H;
    destruct H as (Hl & Hb & Hc & Hcl & HF) end.
  simpl in *.
  assert (sum_with WorkCount ws = 0%Z) as Hsum by (apply sum_with_zero, HF).
  constructor; unfold produced; simpl; rewrite ?Hb, ?Hsum, ?length_replicate; simpl;
    intros; try done; try lia.
  split; [|done]. clear -HF. induction HF; constructor; [lia|assumption].
Qed.

Lemma occ_nil t : occ t [] = 0%Z.
Proof. reflexivity. Qed.

Lemma count_update_exact (ws : list StatefulWorker) i s now T T' :
  ws !! i = Some s ->
  Forall (fun x => 0 <= WorkCount x)%Z ws ->
  sum_with WorkCount ws = T -> (T' = T + 1)%Z -> (T' < 2 ^ 63)%Z ->
  Forall (fun x => 0 <= WorkCount x)%Z
    (<[i := MkWorker (ID s) now (wrap64 (WorkCount s + 1))]> ws) /\
  (sum_with WorkCount ws - WorkCount s + wrap64 (WorkCount s + 1) = T')%Z.
Proof.
  intros Hi HF HS -> HT.
  pose proof (sum_with_lookup_le WorkCount ws i s HF Hi) as Hle.
  assert (0 <= WorkCount s)%Z as Hnn.
  { clear -HF Hi. revert i Hi. induction HF; intros [|i] Hi; simplify_eq/=; eauto. }
  rewrite wrap64_small by lia. split; [|lia].
  apply Forall_insert; [assumption|simpl; lia].
Qed.

Ltac sums :=
  repeat match goal with
  | H : ?l !! ?i = Some ?y |- context[sum_with ?f (<[?i := ?x]> ?l)] =>
      rewrite (sum_with_insert f l i x y H)
  | H : ?l !! ?i = Some ?y, H' : context[sum_with ?f (<[?i := ?x]> ?l)] |- _ =>
      rewrite (sum_with_insert f l i x y H) in H'
  end.

Ltac use_hyps :=
  repeat match goal with
  | H : ?P -> _ |- _ =>
      match type of P with
      | Prop => let HP := fresh in
                assert (HP : P) by (done || congruence || lia);
                specialize (H HP); clear HP
      end
  | H : _ /\ _ |- _ => destruct H
  | H : forall t : iface, _, t : iface |- _ => specialize (H t)
  end.

Ltac bufs :=
  repeat match goal with
  | H : buf _ = _ |- _ => rewrite H in *
  end.

Ltac finish :=
  intros; unfold produced, processTask in *; simpl in *; subst; simpl in *; bufs;
  rewrite ?length_insert, ?length_app, ?occ_app, ?occ_cons in *; simpl in *;
  sums; simpl in *; use_hyps; rewrite ?occ_cons, ?occ_nil in *;
  try done; try congruence; try lia;
  try (etrans; [eassumption|f_equal; lia]);
  try (split; [assumption|lia]);
  try (erewrite wrap64_incr by eassumption; f_equal; lia);
  try (eapply count_update_exact; [eassumption|eassumption|eassumption|lia|lia]).

Lemma inv_step_worker n w i b now w' :
  Inv n w -> step w (AWorker i b now) = Ok w' -> Inv n w'.
Proof.
  intros [] Hs. destruct w as [p gs st sp acc del]. destruct p as [ws tk rs dn g cx rl].
  unfold produced in *. simpl in *.
  destruct (gs !! i) as [pc|] eqn:Hpc; [|discriminate].
  destruct pc; simpl in Hs; unfold on_done, wg_Done, recv, recv_ok, send, bind in Hs; simpl in Hs;
    repeat case_match; simplify_eq/=.
  all: constructor; finish.
Qed.

Ltac open_world w :=
  let p := fresh "p" in
  destruct w as [p gs st sp acc del]; destruct p as [ws tk rs dn g cx rl];
  unfold produced in *; simpl in *.

Lemma inv_step_start n w w' : Inv n w -> step w AStart = Ok w' -> Inv n w'.
Proof.
  intros [] Hs. open_world w.
  case_match; simplify_eq/=.
  destruct gs; [|simpl in *; lia].
  constructor; finish; rewrite ?length_fmap;
    rewrite ?(sum_with_fmap_const _ _ 1%Z), ?(sum_with_fmap_const _ _ 0%Z) in * by done;
    finish.
Qed.

Lemma inv_step_submit n w t b w' : Inv n w -> step w (ASubmit t b) = Ok w' -> Inv n w'.
Proof.
  intros [] Hs. open_world w.
  destruct b; simpl in Hs; unfold send, bind in Hs; simpl in Hs;
    repeat case_match; simplify_eq/=.
  all: constructor; finish.
Qed.

Lemma inv_step_submit_to n w t i w' : Inv n w -> step w (ASubmitTo t i) = Ok w' -> Inv n w'.
Proof.
  intros [] Hs. open_world w.
  unfold handoff, bind in Hs; simpl in Hs; repeat case_match; simplify_eq/=.
  all: constructor; finish.
Qed.

Lemma inv_step_stop n w w' : Inv n w -> step w AStop = Ok w' -> Inv n w'.
Proof.
  intros [] Hs. open_world w.
  case_match; simplify_eq/=.
  destruct sp; simpl in Hs; unfold close, bind in Hs; simpl in Hs;
    repeat case_match; simplify_eq/=.
  all: constructor; finish.
Qed.

Lemma inv_step_publish_to n w i w' : Inv n w -> step w (APublishTo i) = Ok w' -> Inv n w'.
Proof.
  intros [] Hs. open_world w.
  unfold handoff, bind in Hs; simpl in Hs; repeat case_match; simplify_eq/=.
  all: constructor; finish.
Qed.

Lemma inv_step_receive n w w' : Inv n w -> step w AReceive = Ok w' -> Inv n w'.
Proof.
  intros [] Hs. open_world w.
  repeat case_match; simplify_eq/=.
  all: constructor; finish.
Qed.

Lemma inv_step n w a w' : Inv n w -> step w a = Ok w' -> Inv n w'.
Proof.
  destruct a; eauto using inv_step_start, inv_step_submit, inv_step_submit_to,
    inv_step_stop, inv_step_worker, inv_step_publish_to, inv_step_receive.
Qed.

Lemma inv_run n tr : forall w w', Inv n w -> run w tr = Ok w' -> Inv n w'.
Proof.
  induction tr as [|a tr IH]; intros w w' HI H; simpl in H; [congruence|].
  unfold bind in H. destruct (step w a) as [w1| |] eqn:Hs; try discriminate.
  eauto using inv_step.
Qed.

Lemma reachable_inv nworkers queueSize w :
  reachable nworkers queueSize w -> Inv (Z.to_nat nworkers) w.
Proof.
  intros (d & now & p & tr & Hp & Hr). eauto using inv_run, created_inv.
Qed.

Lemma run_app tr1 : forall w tr2,
  run w (tr1 ++ tr2) = (let* w1 := run w tr1 in run w1 tr2).
Proof.
  induction tr1 as [|a tr1 IH]; intros w tr2; simpl; [done|].
  destruct (step w a); simpl; auto.
Qed.

Lemma reachable_run nworkers queueSize w tr w' :
  reachable nworkers queueSize w -> run w tr = Ok w' -> reachable nworkers queueSize w'.
Proof.
  intros (d & now & p & tr0 & Hp & Hr) H.
  exists d, now, p, (tr0 ++ tr). split; [done|]. rewrite run_app, Hr. done.
Qed.

Lemma NewStatefulPool_total_inv nworkers queueSize rateLimit now p :
  NewStatefulPool nworkers queueSize rateLimit now = Ok p -> (0 <= nworkers)%Z.
Proof.
  unfold NewStatefulPool. destruct (nworkers <? 0)%Z eqn:E; [discriminate|lia].
Qed.

(** *** The constructor *)

Lemma NewStatefulPool_limiter nworkers queueSize rateLimit now p :
  NewStatefulPool nworkers queueSize rateLimit now = Ok p ->
  (0 <= nworkers)%Z /\
  Z.of_nat (cap (rateLimiter p)) = nworkers /\
  Z.of_nat (length (buf (rateLimiter p))) = nworkers /\
  Z.of_nat (length (workers p)) = nworkers.
Proof.
  intros H. pose proof (created_inv _ _ _ _ _ H) as [].
  unfold NewStatefulPool in H. destruct (nworkers <? 0)%Z eqn:E; [discriminate|].
  simpl in *. specialize (inv_permits_running0 inv_ctx0). lia.
Qed.

(** C10. The [rateLimit] argument of [NewStatefulPool] is not used: two
    pools made with the same worker count and queue size and with any two
    durations are equal, so that they behave alike in every run; the capacity
    of the rate limiter and the number of its permits are the worker count. *)
Theorem C10_rateLimit_is_ignored nworkers queueSize (d1 d2 : Duration) now :
  NewStatefulPool nworkers queueSize d1 now = NewStatefulPool nworkers queueSize d2 now /\
  (forall p1, NewStatefulPool nworkers queueSize d1 now = Ok p1 ->
     (exists p2, NewStatefulPool nworkers queueSize d2 now = Ok p2 /\
                 forall tr, run (created p1) tr = run (created p2) tr) /\
     Z.of_nat (cap (rateLimiter p1)) = nworkers /\
     Z.of_nat (length (buf (rateLimiter p1))) = nworkers).
Proof.
  split; [reflexivity|]. intros p1 H.
  destruct (NewStatefulPool_limiter _ _ _ _ _ H) as (_ & Hc & Hb & _).
  split; [|auto]. exists p1. split; [exact H|reflexivity].
Qed.

Lemma C10_rateLimit_is_ignored_witness :
  exists p, NewStatefulPool 2 10 100000000 clock0 = Ok p /\
    (exists p2, NewStatefulPool 2 10 200000000 clock0 = Ok p2 /\
                forall tr, run (created p) tr = run (created p2) tr) /\
    Z.of_nat (cap (rateLimiter p)) = 2%Z /\
    Z.of_nat (length (buf (rateLimiter p))) = 2%Z.
Proof.
  eexists. split; [vm_compute; reflexivity|].
  apply (C10_rateLimit_is_ignored 2 10 100000000%Z 200000000%Z clock0). vm_compute; reflexivity.
Defined.

(** *** Submit on a stopped pool *)

Lemma Submit_after_Stop nworkers queueSize w task :
  reachable nworkers queueSize w -> stop w = StopDone ->
  Submit (pool w) task OnChan = Panic SendOnClosedChannel /\
  Submit (pool w) task OnDone = Ok (pool w, Some Canceled).
Proof.
  intros Hr Hs. apply reachable_inv in Hr. destruct Hr.
  unfold Submit, send, bind. rewrite inv_tasks_closed0, inv_ctx0, Hs. done.
Qed.

(** C1. After [Stop()] has returned, the select of [Submit(6)] has two ready
    cases: the receive from [ctx.Done()], which returns the error, and the
    send on the closed task channel, which panics. *)
Theorem C1_Submit_after_Stop_can_panic :
  exists w, world_after 2 10 100000000 graceful_shutdown_run = Ok w /\
    stop w = StopDone /\
    Submit (pool w) (IntV 6) OnDone = Ok (pool w, Some Canceled) /\
    Submit (pool w) (IntV 6) OnChan = Panic SendOnClosedChannel /\
    step w (ASubmit (IntV 6) OnChan) = Panic SendOnClosedChannel.
Proof. eexists. split; [vm_compute; reflexivity|]. vm_compute. repeat split. Qed.

(** *** Permits *)

(** The permits in the limiter and those held by workers never exceed the
    number of workers, and until the context is cancelled none is missing. *)
Lemma permits_bounded nworkers queueSize w :
  reachable nworkers queueSize w ->
  (permits_in_circulation w <= nworkers)%Z /\
  (ctx_done (pool w) = false -> permits_in_circulation w = nworkers)%Z.
Proof.
  intros Hr. pose proof Hr as (d & now & p & tr & Hp & _).
  apply NewStatefulPool_limiter in Hp as (H0 & _).
  apply reachable_inv in Hr as []. unfold permits_in_circulation.
  split; [lia|]. intros Hc. specialize (inv_permits_running0 Hc). lia.
Qed.

(** C3. A pool of one worker has one permit. The worker takes it at its outer
    select; [Stop()] cancels; the worker returns from its inner select without
    putting the permit back: no permit is left, neither in the limiter nor
    with a worker. *)
Theorem C3_permit_lost_on_cancellation :
  exists w0 w,
    world_after 1 1 0 [] = Ok w0 /\ permits_in_circulation w0 = 1%Z /\
    world_after 1 1 0 [AStart; AWorker 0 OnChan 0; AStop; AWorker 0 OnDone 0] = Ok w /\
    goroutines w = [Exited] /\ buf (rateLimiter (pool w)) = [] /\
    permits_in_circulation w = 0%Z.
Proof.
  do 2 eexists. split; [vm_compute; reflexivity|].
  split; [vm_compute; reflexivity|].
  split; [vm_compute; reflexivity|]. vm_compute. repeat split.
Qed.

(** *** Work counts *)

Lemma GetWorkerStats_sum p :
  sum_with sWorkCount (GetWorkerStats p) = sum_with WorkCount (workers p).
Proof.
  unfold GetWorkerStats. induction (workers p) as [|x l IH]; [done|].
  rewrite fmap_cons. simpl. now rewrite IH.
Qed.

Lemma quiescent_counted gs :
  Forall (fun pc => busy pc = false) gs -> sum_with counted gs = 0%Z.
Proof.
  induction 1 as [|pc gs Hpc _ IH]; simpl; [done|].
  destruct pc; simpl in *; try discriminate; lia.
Qed.

(** C9 (amended). In every quiescent state of a pool, the sum of [WorkCount]
    over the entries of [GetWorkerStats()] equals the number of results
    produced on the outbound channel in int64 arithmetic, and exactly as long
    as fewer than 2^63 results have been produced. *)
Theorem C9_work_counts_sum_to_results nworkers queueSize w :
  reachable nworkers queueSize w -> quiescent w ->
  wrap64 (sum_with sWorkCount (GetWorkerStats (pool w))) = wrap64 (produced w) /\
  ((produced w < 2 ^ 63)%Z ->
   sum_with sWorkCount (GetWorkerStats (pool w)) = produced w).
Proof.
  intros Hr Hq. apply reachable_inv in Hr as [].
  rewrite GetWorkerStats_sum. apply quiescent_counted in Hq.
  rewrite Hq, Z.add_0_r in *. split; [assumption|].
  intros Hlt. now apply inv_counts_exact0.
Qed.

(** *** The order of the steps of a worker *)







(** *** Accepted tasks while the pool runs *)

Lemma sum_with_bounds {A} (f : A -> Z) (l : list A) i y :
  (forall x, 0 <= f x <= 1)%Z -> l !! i = Some y ->
  (f y <= sum_with f l <= Z.of_nat (length l) - 1 + f y)%Z.
Proof.
  intros Hf. assert (Hall : forall l', (0 <= sum_with f l' <= Z.of_nat (length l'))%Z).
  { induction l' as [|x l' IH]; simpl; [lia|]. specialize (Hf x). lia. }
  revert i; induction l as [|x l IH]; intros [|i] Hi; simplify_eq/=.
  - specialize (Hall l). lia.
  - specialize (IH i Hi). specialize (Hf x). lia.
Qed.

Lemma holding_bounds pc : (0 <= holding pc <= 1)%Z.
Proof. destruct pc; simpl; lia. Qed.

Lemma live_bounds pc : (0 <= live pc <= 1)%Z.
Proof. destruct pc; simpl; lia. Qed.

Lemma sum_with_weight_nonneg gs : (0 <= sum_with weight gs)%Z.
Proof. induction gs as [|pc gs IH]; simpl; [lia|]. destruct pc; simpl; lia. Qed.

Lemma remaining_work_nonneg w : (0 <= remaining_work w)%Z.
Proof. unfold remaining_work. pose proof (sum_with_weight_nonneg (goroutines w)). lia. Qed.

Lemma occ_count t l : occ t l = Z.of_nat (count_occ iface_eq_dec l t).
Proof.
  induction l as [|x l IH]; [done|]. rewrite occ_cons, IH. simpl.
  destruct (iface_eq_dec x t), (decide (x = t)); try done; lia.
Qed.

Lemma occ_perm l1 l2 : (forall t, occ t l1 = occ t l2) -> l1 ≡ₚ l2.
Proof.
  intros H. apply (Permutation_count_occ iface_eq_dec). intros t.
  specialize (H t). rewrite !occ_count in H. lia.
Qed.

Lemma occ_concat_carrying t gs :
  occ t (concat (carrying <$> gs)) = sum_with (fun pc => occ t (carrying pc)) gs.
Proof.
  induction gs as [|pc gs IH]; [done|].
  rewrite fmap_cons. simpl. rewrite occ_app, IH. done.
Qed.

(** While the pool runs, every accepted task is in exactly one place: in the
    inbound queue, with a worker, in the outbound queue, or with the
    consumer. *)
Lemma accepted_conserved n w :
  Inv n w -> stop w = StopIdle ->
  accepted w ≡ₚ
    buf (tasks (pool w)) ++ concat (carrying <$> goroutines w) ++
    buf (results (pool w)) ++ delivered w.
Proof.
  intros [] Hs. apply occ_perm. intros t.
  rewrite !occ_app, occ_concat_carrying. rewrite (inv_conserve0 Hs t). lia.
Qed.

(** A step of a worker or of the consumer, before [Stop], uses up some of
    the remaining work and leaves the clients' side as it is. *)
Lemma drain_step n w a w' :
  Inv n w -> stop w = StopIdle -> pool_or_consumer a = true -> step w a = Ok w' ->
  stop w' = StopIdle /\ accepted w' = accepted w /\ started w' = started w /\
  (remaining_work w' < remaining_work w)%Z.
Proof.
  intros [] Hst Ha Hs. unfold remaining_work.
  destruct w as [p gs st sp acc del]; destruct p as [ws tk rs dn g cx rl].
  simpl in *. subst sp. simpl in *. subst cx.
  destruct a; try discriminate; simpl in Hs.
  - destruct (gs !! i) as [pc|] eqn:Hpc; [|discriminate].
    destruct pc, b; simpl in Hs;
      unfold on_done, wg_Done, recv, recv_ok, send, bind in Hs; simpl in Hs;
      repeat case_match; simplify_eq/=;
      rewrite ?(sum_with_insert _ _ _ _ _ Hpc); simpl;
      repeat match goal with H : buf _ = _ |- _ => rewrite H end;
      rewrite ?length_app; simpl; try congruence; repeat split;
      first [lia | apply lookup_lt_Some in Hpc; simpl in *; lia].
  - destruct (gs !! i) as [pc|] eqn:Hpc; [|discriminate].
    destruct pc; try discriminate. unfold handoff, bind in Hs; simpl in Hs.
    repeat case_match; simplify_eq/=.
    rewrite ?(sum_with_insert _ _ _ _ _ Hpc); simpl; try congruence.
    repeat match goal with H : buf _ = _ |- _ => rewrite H end. simpl.
    all: repeat split; first [lia | apply lookup_lt_Some in Hpc; simpl in *; lia].
  - repeat case_match; simplify_eq/=; try congruence;
      repeat match goal with H : buf _ = _ |- _ => rewrite H end;
      simpl; repeat split; lia.
Qed.

Lemma drain_run n tr : forall w w',
  Inv n w -> stop w = StopIdle ->
  Forall (fun a => pool_or_consumer a = true) tr -> run w tr = Ok w' ->
  Inv n w' /\ stop w' = StopIdle /\ accepted w' = accepted w /\
  started w' = started w /\
  (Z.of_nat (length tr) + remaining_work w' <= remaining_work w)%Z.
Proof.
  induction tr as [|a tr IH]; intros w w' HI Hst HF Hr; simpl in Hr.
  - simplify_eq. split; [assumption|]. repeat split; auto. simpl. lia.
  - unfold bind in Hr. destruct (step w a) as [w1| |] eqn:Hs; try discriminate.
    inversion HF as [|? ? Ha HF']; subst.
    destruct (drain_step _ _ _ _ HI Hst Ha Hs) as (H1 & H2 & H3 & H4).
    destruct (IH _ _ (inv_step _ _ _ _ HI Hs) H1 HF' Hr) as (K0 & K1 & K2 & K3 & K4).
    split; [assumption|]. repeat split; try congruence. simpl length. lia.
Qed.

(** When no worker and no consumer can move, every worker waits for a task
    and both queues are empty. *)
Lemma at_rest_idle n w :
  Inv n w -> stop w = StopIdle -> started w = true -> 0 < n -> at_rest w ->
  Forall (fun pc => pc = AtInner) (goroutines w) /\
  buf (tasks (pool w)) = [] /\ buf (results (pool w)) = [].
Proof.
  intros HI Hst Hsd Hn Hrest. pose proof HI as [].
  rewrite Hsd in inv_goroutines0. rewrite Hst in *. simpl in *.
  specialize (inv_permits_running0 inv_ctx0). specialize (inv_live0 inv_ctx0).
  assert (Hres : buf (results (pool w)) = []).
  { specialize (Hrest AReceive eq_refl). simpl in Hrest.
    destruct (buf (results (pool w))); [done|discriminate]. }
  assert (Hall : forall i pc, goroutines w !! i = Some pc -> pc = AtInner).
  { intros i pc Hpc.
    pose proof (sum_with_bounds holding _ _ _ holding_bounds Hpc) as Hh.
    pose proof (sum_with_bounds live _ _ _ live_bounds Hpc) as Hl.
    assert (is_Some (workers (pool w) !! i)) as [x Hx].
    { apply lookup_lt_is_Some. apply lookup_lt_Some in Hpc. lia. }
    pose proof (Hrest (AWorker i OnChan 0) eq_refl) as Hw.
    pose proof (Hrest (APublishTo i) eq_refl) as Hp.
    simpl in Hw, Hp. rewrite Hpc in Hw, Hp.
    destruct pc; simpl in *; try done; try lia;
      unfold recv, recv_ok, send, handoff, bind in *; simpl in *;
      rewrite ?Hx, ?Hres, ?inv_lim_open0, ?inv_results_closed0 in *; simpl in *;
      repeat case_match; simplify_eq/=; try lia.
    all: match goal with H : buf _ = [] |- _ => rewrite H in *; simpl in *; lia end. }
  split; [|split; [|done]].
  - apply Forall_lookup. exact Hall.
  - assert (is_Some (goroutines w !! 0)) as [pc Hpc].
    { apply lookup_lt_is_Some. lia. }
    pose proof (Hall _ _ Hpc); subst pc.
    pose proof (Hrest (AWorker 0 OnChan 0) eq_refl) as Hw.
    simpl in Hw. rewrite Hpc in Hw. simpl in Hw.
    unfold recv, recv_ok, bind in Hw.
    destruct (buf (tasks (pool w))); [done|discriminate].
Qed.

Lemma carrying_idle gs :
  Forall (fun pc => pc = AtInner) gs -> concat (carrying <$> gs) = [].
Proof. induction 1 as [|pc gs -> _ IH]; [done|]. rewrite fmap_cons. simpl. exact IH. Qed.

(** C2 (amended). Take a running pool ([Start] called, [Stop] not called)
    with at least one worker, and any schedule of its workers and of a
    consumer that keeps reading, without further calls of [Submit] or [Stop].
    The schedule is no longer than the work that remains; at every moment each
    accepted task is in one place only (inbound queue, a worker, outbound
    queue, consumer); and when no worker and no consumer can move any more,
    the consumer has received exactly the accepted tasks. *)
Theorem C2_accepted_tasks_delivered_while_running nworkers queueSize w tr w' :
  reachable nworkers queueSize w -> (1 <= nworkers)%Z ->
  started w = true -> stop w = StopIdle ->
  Forall (fun a => pool_or_consumer a = true) tr -> run w tr = Ok w' ->
  (Z.of_nat (length tr) <= remaining_work w)%Z /\
  accepted w ≡ₚ
    buf (tasks (pool w')) ++ concat (carrying <$> goroutines w') ++
    buf (results (pool w')) ++ delivered w' /\
  (at_rest w' -> delivered w' ≡ₚ accepted w).
Proof.
  intros Hr Hn Hsd Hst HF Hrun. apply reachable_inv in Hr.
  destruct (drain_run _ _ _ _ Hr Hst HF Hrun) as (HI & Hst' & Hacc & Hsd' & Hlen).
  pose proof (remaining_work_nonneg w').
  pose proof (accepted_conserved _ _ HI Hst') as Hcons. rewrite Hacc in Hcons.
  split; [lia|]. split; [exact Hcons|].
  intros Hrest.
  destruct (at_rest_idle (Z.to_nat nworkers) w' HI Hst') as (Hidle & Ht & Hres);
    [congruence|lia|exact Hrest|].
  rewrite Ht, Hres, (carrying_idle _ Hidle) in Hcons. simpl in Hcons.
  symmetry. exact Hcons.
Qed.

(** *** Completion of Stop *)

Lemma run_snoc w tr a w1 :
  run w tr = Ok w1 -> run w (tr ++ [a]) = step w1 a.
Proof.
  intros H. rewrite run_app, H. simpl. destruct (step w1 a); done.
Qed.

Lemma run_app_Ok w tr1 tr2 w1 :
  run w tr1 = Ok w1 -> run w (tr1 ++ tr2) = run w1 tr2.
Proof. intros H. rewrite run_app, H. done. Qed.

Lemma run_one w a w' : step w a = Ok w' -> run w [a] = Ok w'.
Proof. intros H. cbn [run]. rewrite H. done. Qed.

Lemma exit_on_done n w i pc :
  Inv n w -> ctx_done (pool w) = true ->
  goroutines w !! i = Some pc -> pc = AtOuter \/ pc = AtInner ->
  exists w', step w (AWorker i OnDone 0) = Ok w' /\
    goroutines w' = <[i := Exited]> (goroutines w) /\ same_queues w w'.
Proof.
  intros HI Hc Hpc Hor. pose proof HI as [].
  pose proof (sum_with_bounds live _ _ _ live_bounds Hpc) as Hl.
  simpl. rewrite Hpc. unfold bind.
  assert (exists g, wg (pool w) = S g) as [g Hg].
  { destruct (wg (pool w)); [|eauto]. destruct Hor; subst; simpl in *; lia. }
  destruct Hor; subst; simpl; unfold on_done, wg_Done, bind; rewrite Hc, Hg; simpl;
    eexists; (split; [reflexivity|]); split; done.
Qed.

Lemma release_step n w i :
  Inv n w -> goroutines w !! i = Some AtRelease ->
  exists w', step w (AWorker i OnChan 0) = Ok w' /\
    goroutines w' = <[i := AtOuter]> (goroutines w) /\ same_queues w w'.
Proof.
  intros HI Hpc. pose proof HI as [].
  pose proof (sum_with_bounds holding _ _ _ holding_bounds Hpc) as Hl.
  simpl in Hl. simpl. rewrite Hpc. simpl. unfold send, bind.
  rewrite inv_lim_open0. destruct (decide _) as [|Hn]; [|lia].
  simpl. eexists; (split; [reflexivity|]); split; done.
Qed.

Lemma publish_to_step n w i v :
  Inv n w -> waited_at (stop w) = false -> buf (results (pool w)) = [] ->
  goroutines w !! i = Some (AtPublish v) ->
  exists w', step w (APublishTo i) = Ok w' /\
    goroutines w' = <[i := AtRelease]> (goroutines w) /\ same_queues w w'.
Proof.
  intros HI Hs Hb Hpc. pose proof HI as [].
  simpl. rewrite Hpc. unfold handoff, bind. rewrite inv_results_closed0, Hb.
  destruct (stop w) eqn:E; try discriminate; simpl;
    eexists; (split; [reflexivity|]); (split; [done|]); constructor; simpl; done.
Qed.

Lemma process_step n w i t :
  Inv n w -> started w = true -> goroutines w !! i = Some (AtProcess t) ->
  exists w', step w (AWorker i OnChan 0) = Ok w' /\
    goroutines w' = <[i := AtPublish t]> (goroutines w) /\ same_queues w w'.
Proof.
  intros HI Hsd Hpc. pose proof HI as []. rewrite Hsd in *.
  assert (is_Some (workers (pool w) !! i)) as [x Hx].
  { apply lookup_lt_is_Some. apply lookup_lt_Some in Hpc. lia. }
  simpl. rewrite Hpc. simpl. rewrite Hx. simpl.
  eexists; (split; [reflexivity|]); split; done.
Qed.

Lemma update_step n w i t :
  Inv n w -> started w = true -> goroutines w !! i = Some (AtUpdate t) ->
  exists w', step w (AWorker i OnChan 0) = Ok w' /\
    goroutines w' = <[i := AtProcess t]> (goroutines w) /\ same_queues w w'.
Proof.
  intros HI Hsd Hpc. pose proof HI as []. rewrite Hsd in *.
  assert (is_Some (workers (pool w) !! i)) as [x Hx].
  { apply lookup_lt_is_Some. apply lookup_lt_Some in Hpc. lia. }
  simpl. rewrite Hpc. simpl. rewrite Hx. simpl.
  eexists; (split; [reflexivity|]); split; done.
Qed.

Lemma draining_step n w a w' :
  draining n w -> step w a = Ok w' -> same_queues w w' -> draining n w'.
Proof.
  intros [] Hs []. constructor; try congruence. eauto using inv_step.
Qed.

Lemma finish_worker_run n w i pc :
  draining n w -> goroutines w !! i = Some pc ->
  exists w', run w (finish_worker pc i) = Ok w' /\
    goroutines w' = <[i := Exited]> (goroutines w) /\ draining n w'.
Proof.
  intros Hd Hpc.
  assert (Hlt : i < length (goroutines w)) by (eapply lookup_lt_Some; eauto).
  assert (Hexit : forall w0 pc0, draining n w0 -> goroutines w0 !! i = Some pc0 ->
            pc0 = AtOuter \/ pc0 = AtInner ->
            exists w', run w0 [AWorker i OnDone 0] = Ok w' /\
              goroutines w' = <[i := Exited]> (goroutines w0) /\ draining n w').
  { intros w0 pc0 Hd0 Hpc0 Hor. pose proof Hd0 as [].
    destruct (exit_on_done n w0 i pc0) as (w' & Hs & Hg & Hq); auto.
    { destruct dr_inv0. rewrite inv_ctx0, dr_stop0. done. }
    exists w'. rewrite (run_one _ _ _ Hs). eauto using draining_step. }
  assert (Hrel : forall w0, draining n w0 -> goroutines w0 !! i = Some AtRelease ->
            exists w', run w0 (finish_worker AtRelease i) = Ok w' /\
              goroutines w' = <[i := Exited]> (goroutines w0) /\ draining n w').
  { intros w0 Hd0 Hpc0. pose proof Hd0 as [].
    destruct (release_step n w0 i) as (w1 & Hs & Hg & Hq); auto.
    destruct (Hexit w1 AtOuter) as (w' & Hr & Hg' & Hd'); eauto using draining_step.
    { rewrite Hg. apply list_lookup_insert_eq. eapply lookup_lt_Some; eauto. }
    exists w'. change (finish_worker AtRelease i)
      with ([AWorker i OnChan 0] ++ [AWorker i OnDone 0]).
    erewrite run_app_Ok by (apply run_one, Hs).
    split; [exact Hr|]. split; [|exact Hd'].
    rewrite Hg', Hg. apply list_insert_insert_eq. }
  assert (Hpub : forall w0 v, draining n w0 -> goroutines w0 !! i = Some (AtPublish v) ->
            exists w', run w0 (finish_worker (AtPublish v) i) = Ok w' /\
              goroutines w' = <[i := Exited]> (goroutines w0) /\ draining n w').
  { intros w0 v Hd0 Hpc0. pose proof Hd0 as [].
    destruct (publish_to_step n w0 i v) as (w1 & Hs & Hg & Hq); auto.
    { rewrite dr_stop0. done. }
    destruct (Hrel w1) as (w' & Hr & Hg' & Hd'); eauto using draining_step.
    { rewrite Hg. apply list_lookup_insert_eq. eapply lookup_lt_Some; eauto. }
    exists w'. change (finish_worker (AtPublish v) i)
      with ([APublishTo i] ++ finish_worker AtRelease i).
    erewrite run_app_Ok by (apply run_one, Hs).
    split; [exact Hr|]. split; [|exact Hd'].
    rewrite Hg', Hg. apply list_insert_insert_eq. }
  assert (Hproc : forall w0 v, draining n w0 -> goroutines w0 !! i = Some (AtProcess v) ->
            exists w', run w0 (finish_worker (AtProcess v) i) = Ok w' /\
              goroutines w' = <[i := Exited]> (goroutines w0) /\ draining n w').
  { intros w0 v Hd0 Hpc0. pose proof Hd0 as [].
    destruct (process_step n w0 i v) as (w1 & Hs & Hg & Hq); auto.
    destruct (Hpub w1 v) as (w' & Hr & Hg' & Hd'); eauto using draining_step.
    { rewrite Hg. apply list_lookup_insert_eq. eapply lookup_lt_Some; eauto. }
    exists w'. change (finish_worker (AtProcess v) i)
      with ([AWorker i OnChan 0] ++ finish_worker (AtPublish v) i).
    erewrite run_app_Ok by (apply run_one, Hs).
    split; [exact Hr|]. split; [|exact Hd'].
    rewrite Hg', Hg. apply list_insert_insert_eq. }
  destruct pc.
  - apply (Hexit w AtOuter); auto.
  - apply (Hexit w AtInner); auto.
  - pose proof Hd as [].
    destruct (update_step n w i task) as (w1 & Hs & Hg & Hq); auto.
    destruct (Hproc w1 task) as (w' & Hr & Hg' & Hd'); eauto using draining_step.
    { rewrite Hg. apply list_lookup_insert_eq. eapply lookup_lt_Some; eauto. }
    exists w'. change (finish_worker (AtUpdate task) i)
      with ([AWorker i OnChan 0] ++ finish_worker (AtProcess task) i).
    erewrite run_app_Ok by (apply run_one, Hs).
    split; [exact Hr|]. split; [|exact Hd'].
    rewrite Hg', Hg. apply list_insert_insert_eq.
  - apply Hproc; auto.
  - apply Hpub; auto.
  - apply Hrel; auto.
  - exists w. simpl. split; [done|]. split; [|done].
    symmetry. apply list_insert_id. exact Hpc.
Qed.

Lemma finish_from_run n pcs : forall i w,
  draining n w -> drop i (goroutines w) = pcs ->
  exists w', run w (finish_from i pcs) = Ok w' /\
    goroutines w' = take i (goroutines w) ++ replicate (length pcs) Exited /\
    draining n w'.
Proof.
  induction pcs as [|pc pcs IH]; intros i w Hd Hdrop.
  - exists w. simpl. split; [done|]. split; [|done].
    rewrite app_nil_r. symmetry. apply take_ge.
    apply drop_nil_inv in Hdrop. lia.
  - assert (Hpc : goroutines w !! i = Some pc).
    { rewrite <- (Nat.add_0_r i), <- lookup_drop, Hdrop. done. }
    destruct (finish_worker_run n w i pc Hd Hpc) as (w1 & Hr1 & Hg1 & Hd1).
    destruct (IH (S i) w1 Hd1) as (w' & Hr & Hg & Hd').
    { rewrite Hg1. rewrite drop_insert_lt by lia.
      rewrite (drop_S _ _ _ Hpc) in Hdrop. congruence. }
    exists w'. simpl. rewrite (run_app_Ok _ _ _ _ Hr1). split; [exact Hr|].
    split; [|exact Hd'].
    rewrite Hg, Hg1. apply lookup_lt_Some in Hpc.
    rewrite (take_S_r _ _ Exited) by (apply list_lookup_insert_eq; lia).
    rewrite take_insert_ge by lia. rewrite <- app_assoc. done.
Qed.

Lemma receive_all n : forall k w,
  Inv n w -> length (buf (results (pool w))) = k ->
  exists w', run w (replicate k AReceive) = Ok w' /\
    buf (results (pool w')) = [] /\ goroutines w' = goroutines w /\
    stop w' = stop w /\ started w' = started w /\ Inv n w'.
Proof.
  induction k as [|k IH]; intros w HI Hk.
  - exists w. destruct (buf (results (pool w))); [|discriminate]. split_and!; done.
  - destruct (buf (results (pool w))) as [|v b] eqn:Hb; [discriminate|].
    assert (exists w1, step w AReceive = Ok w1 /\ buf (results (pool w1)) = b /\
              goroutines w1 = goroutines w /\ stop w1 = stop w /\
              started w1 = started w) as (w1 & Hs & Hb1 & Hg1 & Hs1 & Hsd1).
    { simpl. rewrite Hb. eexists. split; [reflexivity|]. done. }
    destruct (IH w1) as (w' & Hr & ? & ? & ? & ? & ?); eauto using inv_step.
    { rewrite Hb1. simpl in Hk. lia. }
    exists w'. change (replicate (S k) AReceive) with ([AReceive] ++ replicate k AReceive).
    rewrite (run_app_Ok _ _ _ _ (run_one _ _ _ Hs)). split; [exact Hr|].
    split_and!; try congruence; auto.
Qed.

Lemma live_all_exited k : sum_with live (replicate k Exited) = 0%Z.
Proof. induction k; simpl; lia. Qed.

(** From the wait of [Stop] on. *)
Lemma shutdown_from_waiting n w :
  Inv n w -> started w = true -> stop w = StopWaiting ->
  exists w',
    run w (replicate (length (buf (results (pool w)))) AReceive
           ++ finish_from 0 (goroutines w) ++ [AStop; AStop]) = Ok w' /\
    stop w' = StopDone.
Proof.
  intros HI Hsd Hst.
  destruct (receive_all n _ w HI eq_refl) as (w1 & Hr1 & Hb1 & Hg1 & Hs1 & Hsd1 & HI1).
  assert (Hd1 : draining n w1) by (constructor; congruence).
  destruct (finish_from_run n (goroutines w1) 0 w1 Hd1 eq_refl) as (w2 & Hr2 & Hg2 & Hd2).
  rewrite take_0 in Hg2. simpl in Hg2. destruct Hd2 as [HI2 Hst2 Hb2 Hsd2].
  pose proof HI2 as [].
  rewrite Hg2, live_all_exited in inv_wg0.
  assert (Hwg : wg (pool w2) = 0) by lia.
  rewrite (run_app_Ok _ _ _ _ Hr1), <- Hg1, (run_app_Ok _ _ _ _ Hr2).
  simpl. rewrite Hsd2, Hst2. simpl. rewrite Hwg. simpl.
  unfold close, bind. simpl. rewrite inv_results_closed0, Hst2. simpl.
  eexists. split; [reflexivity|]. done.
Qed.

Lemma finish_worker_length pc i : length (finish_worker pc i) <= 5.
Proof. destruct pc; simpl; lia. Qed.

Lemma finish_from_length pcs : forall i, length (finish_from i pcs) <= 5 * length pcs.
Proof.
  induction pcs as [|pc pcs IH]; intros i; simpl; [lia|].
  rewrite length_app. pose proof (finish_worker_length pc i). specialize (IH (S i)). lia.
Qed.

Lemma finish_from_shutdown pcs : forall i,
  Forall (fun a => shutdown_action a = true) (finish_from i pcs).
Proof.
  induction pcs as [|pc pcs IH]; intros i; simpl; [constructor|].
  apply Forall_app. split; [|apply IH]. destruct pc; simpl; repeat constructor.
Qed.

(** C6 (amended). Once a pool is started, [Stop()] can always complete if
    the consumer keeps reading: whatever the workers are doing and whatever
    the queues hold, the shutdown schedule (the remaining statements of
    [Stop], the consumer emptying the outbound queue, every worker running
    to its return) ends with [Stop] returned; it has at most five steps for
    each worker, one for each buffered result, and four of [Stop]. *)
Theorem C6_Stop_completes_with_reading_consumer nworkers queueSize w :
  reachable nworkers queueSize w -> started w = true ->
  Forall (fun a => shutdown_action a = true) (shutdown_schedule w) /\
  (Z.of_nat (length (shutdown_schedule w))
   <= 5 * nworkers + Z.of_nat (length (buf (results (pool w)))) + 4)%Z /\
  exists w', run w (shutdown_schedule w) = Ok w' /\ stop w' = StopDone.
Proof.
  intros Hr Hsd. pose proof Hr as (d & now & p & tr & Hp & _).
  apply NewStatefulPool_total_inv in Hp as Hn.
  apply reachable_inv in Hr as HI. pose proof HI as [].
  rewrite Hsd in inv_goroutines0.
  pose proof (finish_from_length (goroutines w) 0) as Hlen.
  pose proof (finish_from_shutdown (goroutines w) 0) as Hsh.
  assert (Hrecv : Forall (fun a => shutdown_action a = true)
            (replicate (length (buf (results (pool w)))) AReceive)).
  { apply Forall_replicate. done. }
  unfold shutdown_schedule. split; [|split].
  - destruct (stop w); repeat (apply Forall_app; split); repeat constructor; auto.
  - destruct (stop w); rewrite ?length_app, ?length_replicate; simpl length; lia.
  - destruct (stop w) eqn:Hst.
    + (* Stop not called yet *)
      assert (exists w2, run w [AStop; AStop] = Ok w2 /\ stop w2 = StopWaiting /\
                goroutines w2 = goroutines w /\
                buf (results (pool w2)) = buf (results (pool w)) /\
                started w2 = true) as (w2 & Hr2 & Hst2 & Hg2 & Hb2 & Hsd2).
      { simpl. rewrite Hsd, Hst. simpl. unfold close, bind. simpl.
        rewrite inv_tasks_closed0, ?Hst. simpl. eexists. split; [reflexivity|]. done. }
      destruct (shutdown_from_waiting (Z.to_nat nworkers) w2) as (w' & Hr' & Hd');
        eauto using inv_run.
      exists w'. rewrite (run_app_Ok _ _ _ _ Hr2), <- Hb2, <- Hg2. done.
    + assert (exists w2, run w [AStop] = Ok w2 /\ stop w2 = StopWaiting /\
                goroutines w2 = goroutines w /\
                buf (results (pool w2)) = buf (results (pool w)) /\
                started w2 = true) as (w2 & Hr2 & Hst2 & Hg2 & Hb2 & Hsd2).
      { simpl. rewrite Hsd, Hst. simpl. unfold close, bind. simpl.
        rewrite inv_tasks_closed0, ?Hst. simpl. eexists. split; [reflexivity|]. done. }
      destruct (shutdown_from_waiting (Z.to_nat nworkers) w2) as (w' & Hr' & Hd');
        eauto using inv_run.
      exists w'. rewrite (run_app_Ok _ _ _ _ Hr2), <- Hb2, <- Hg2. done.
    + simpl. apply (shutdown_from_waiting (Z.to_nat nworkers)); auto.
    + simpl. rewrite Hsd, Hst. simpl. unfold close, bind.
      rewrite inv_results_closed0, ?Hst. simpl. eexists. split; [reflexivity|]. done.
    + exists w. done.
Qed.

(** *** A worker blocked on the outbound queue *)

Lemma publisher_stuck_step v w a w' :
  publisher_stuck v w -> consumer a = false -> step w a = Ok w' ->
  publisher_stuck v w'.
Proof.
  intros (Hg & Hcap & Hcl & Hwg & Hsd & Hs1 & Hs2) Ha Hs.
  destruct w as [p gs st sp acc del]; destruct p as [ws tk rs dn g cx rl].
  simpl in *. subst gs st g.
  destruct a; try discriminate; simpl in Hs.
  - unfold bind in Hs. destruct (Submit _ _ _) as [[p' e]| |] eqn:HS; simplify_eq/=.
    destruct b; simpl in HS; unfold send, bind in HS; simpl in HS;
      repeat case_match; simplify_eq/=; done.
  - destruct i; simpl in Hs; discriminate.
  - destruct sp; simpl in Hs; unfold close, bind in Hs; simpl in Hs;
      repeat case_match; simplify_eq/=; done.
  - destruct i as [|i]; simpl in Hs; [|discriminate].
    unfold send, bind in Hs; simpl in Hs. rewrite Hcl in Hs.
    destruct (decide _); [lia|discriminate].
Qed.

Lemma publisher_stuck_run v tr : forall w w',
  publisher_stuck v w -> Forall (fun a => consumer a = false) tr ->
  run w tr = Ok w' -> publisher_stuck v w'.
Proof.
  induction tr as [|a tr IH]; intros w w' Hp HF Hr; simpl in Hr; [congruence|].
  unfold bind in Hr. destruct (step w a) as [w1| |] eqn:Hs; try discriminate.
  inversion HF; subst. eauto using publisher_stuck_step.
Qed.

(** C5, counterexample. In [StatefulPool] the send of a result blocks: with
    a full outbound queue the worker cannot take a step, whichever case and
    whenever, and it stays at its send as long as the consumer does not
    read. *)
Lemma C5_counterexample :
  exists w, world_after 1 1 0 abandoned_consumer_run = Ok w /\
    goroutines w = [AtPublish (IntV 2)] /\
    (forall b now, step w (AWorker 0 b now) = Blocked) /\
    (forall tr w', Forall (fun a => consumer a = false) tr -> run w tr = Ok w' ->
       goroutines w' = [AtPublish (IntV 2)] /\
       forall b now, step w' (AWorker 0 b now) = Blocked).
Proof.
  eexists. split; [vm_compute; reflexivity|].
  match goal with |- goroutines ?w = _ /\ _ => set (w0 := w) end.
  assert (Hstuck : publisher_stuck (IntV 2) w0).
  { unfold publisher_stuck. simpl. split_and!; done || lia. }
  assert (Hblocked : forall w, publisher_stuck (IntV 2) w ->
            forall b now, step w (AWorker 0 b now) = Blocked).
  { intros w (Hg & Hcap & Hcl & _) b now. simpl. rewrite Hg. simpl.
    unfold send, bind. rewrite Hcl. destruct (decide _); [lia|done]. }
  split; [done|]. split; [auto|].
  intros tr w' HF Hr. pose proof (publisher_stuck_run _ _ _ _ Hstuck HF Hr) as Hs'.
  split; [apply Hs'|auto].
Qed.

(** C6, counterexample. The same run, then [Stop()] is called: as long as
    the consumer does not read, [Stop] does not return. *)
Lemma C6_counterexample :
  exists w, world_after 1 1 0 (abandoned_consumer_run ++ [AStop]) = Ok w /\
    stop w = StopCancelled /\
    forall tr w', Forall (fun a => consumer a = false) tr -> run w tr = Ok w' ->
      stop w' <> StopDone.
Proof.
  eexists. split; [vm_compute; reflexivity|].
  match goal with |- stop ?w = _ /\ _ => set (w0 := w) end.
  assert (Hstuck : publisher_stuck (IntV 2) w0).
  { unfold publisher_stuck. simpl. split_and!; done || lia. }
  split; [done|]. intros tr w' HF Hr.
  apply (publisher_stuck_run _ _ _ _ Hstuck HF Hr).
Qed.

Lemma reachable_world_after nworkers queueSize rateLimit tr w :
  world_after nworkers queueSize rateLimit tr = Ok w -> reachable nworkers queueSize w.
Proof.
  unfold world_after, bind. intros H.
  destruct (NewStatefulPool _ _ _ _) as [p| |] eqn:Hp; try discriminate.
  exists rateLimit, clock0, p, tr. done.
Qed.

Lemma C6_Stop_completes_with_reading_consumer_witness :
  exists w, world_after 1 1 0 abandoned_consumer_run = Ok w /\
    (Forall (fun a => shutdown_action a = true) (shutdown_schedule w) /\
     (Z.of_nat (length (shutdown_schedule w))
      <= 5 * 1 + Z.of_nat (length (buf (results (pool w)))) + 4)%Z /\
     exists w', run w (shutdown_schedule w) = Ok w' /\ stop w' = StopDone).
Proof.
  eexists. split; [vm_compute; reflexivity|].
  apply (C6_Stop_completes_with_reading_consumer 1 1).
  - apply (reachable_world_after 1 1 0%Z abandoned_consumer_run). vm_compute; reflexivity.
  - vm_compute; reflexivity.
Defined.

(** *** Tasks lost at shutdown *)

(** C2, counterexample. One task is accepted by a running pool, then
    [Stop()] is called; the worker sees the cancellation at its first select
    and returns; [Stop] returns: the task is still in the closed inbound
    queue, and the outbound queue is closed and empty, nothing was
    delivered. *)
Lemma C2_counterexample :
  exists w,
    world_after 1 1 0
      [AStart; ASubmit (IntV 7) OnChan; AStop; AWorker 0 OnDone 0; AStop; AStop; AStop]
    = Ok w /\
    stop w = StopDone /\ accepted w = [IntV 7] /\ delivered w = [] /\
    buf (results (pool w)) = [] /\ closed (results (pool w)) = true /\
    goroutines w = [Exited] /\ buf (tasks (pool w)) = [IntV 7].
Proof. eexists. split; [vm_compute; reflexivity|]. vm_compute. split_and!; reflexivity. Qed.

Lemma C2_accepted_tasks_delivered_while_running_witness :
  exists w w',
    world_after 1 1 0 [AStart; ASubmit (IntV 7) OnChan] = Ok w /\
    run w [AWorker 0 OnChan 0; AWorker 0 OnChan 0; AWorker 0 OnChan 0;
           AWorker 0 OnChan 0; AWorker 0 OnChan 0; AWorker 0 OnChan 0;
           AReceive; AWorker 0 OnChan 0] = Ok w' /\
    delivered w' = [IntV 7] /\
    ((8 <= remaining_work w)%Z /\
     accepted w ≡ₚ
       buf (tasks (pool w')) ++ concat (carrying <$> goroutines w') ++
       buf (results (pool w')) ++ delivered w' /\
     (at_rest w' -> delivered w' ≡ₚ accepted w)).
Proof.
  do 2 eexists. split; [vm_compute; reflexivity|].
  split; [vm_compute; reflexivity|]. split; [vm_compute; reflexivity|].
  eapply (C2_accepted_tasks_delivered_while_running 1 1 _
            [AWorker 0 OnChan 0; AWorker 0 OnChan 0; AWorker 0 OnChan 0;
             AWorker 0 OnChan 0; AWorker 0 OnChan 0; AWorker 0 OnChan 0;
             AReceive; AWorker 0 OnChan 0]).
  - apply (reachable_world_after 1 1 0%Z [AStart; ASubmit (IntV 7) OnChan]).
    vm_compute; reflexivity.
  - lia.
  - vm_compute; reflexivity.
  - vm_compute; reflexivity.
  - repeat constructor.
  - vm_compute; reflexivity.
Defined.

(** *** A worker at its send while nobody reads *)

Lemma publisher_is_live n w i v :
  Inv n w -> goroutines w !! i = Some (AtPublish v) ->
  started w = true /\ closed (results (pool w)) = false /\
  stop w <> StopWaited /\ stop w <> StopDone /\ wg (pool w) <> 0.
Proof.
  intros [] Hpc.
  pose proof (sum_with_bounds live _ _ _ live_bounds Hpc) as Hl. simpl in Hl.
  assert (Hlt : i < length (goroutines w)) by (eapply lookup_lt_Some; eauto).
  split; [destruct (started w); [done|lia]|].
  rewrite inv_results_closed0.
  destruct (stop w); simpl in *; split_and!; try done; try lia;
    specialize (inv_waited0 eq_refl); lia.
Qed.

Lemma blocked_publisher_blocked n w i v :
  Inv n w -> goroutines w !! i = Some (AtPublish v) ->
  cap (results (pool w)) <= length (buf (results (pool w))) ->
  forall b now, step w (AWorker i b now) = Blocked.
Proof.
  intros HI Hpc Hfull b now.
  destruct (publisher_is_live n w i v HI Hpc) as (_ & Hc & _).
  simpl. rewrite Hpc. simpl. unfold send, bind. rewrite Hc.
  destruct (decide _); [lia|done].
Qed.

Lemma blocked_publisher_step n w i v a w' :
  Inv n w -> goroutines w !! i = Some (AtPublish v) ->
  cap (results (pool w)) <= length (buf (results (pool w))) ->
  consumer a = false -> step w a = Ok w' ->
  goroutines w' !! i = Some (AtPublish v) /\
  cap (results (pool w')) <= length (buf (results (pool w'))).
Proof.
  intros HI Hpc Hfull Ha Hs.
  destruct (publisher_is_live n w i v HI Hpc) as (Hsd & Hc & _).
  destruct a; try discriminate.
  - simpl in Hs. rewrite Hsd in Hs. discriminate.
  - simpl in Hs. unfold bind in Hs. destruct (Submit _ _ _) as [[p' e]| |] eqn:HS; simplify_eq/=.
    destruct b; simpl in HS; unfold send, bind in HS;
      repeat case_match; simplify_eq/=; done.
  - simpl in Hs. destruct (goroutines w !! i0) as [pc|] eqn:Hj; [|discriminate].
    destruct pc; try discriminate.
    unfold handoff, bind in Hs. repeat case_match; simplify_eq/=.
    split; [|done]. rewrite list_lookup_insert_ne; [done|]. congruence.
  - simpl in Hs. rewrite Hsd in Hs. unfold bind in Hs.
    destruct (Stop_step _ _) as [[p' s']| |] eqn:HS; simplify_eq/=.
    destruct (stop w); simpl in HS; unfold close, bind in HS;
      repeat case_match; simplify_eq/=; done.
  - destruct (decide (i0 = i)) as [->|Hne].
    + rewrite (blocked_publisher_blocked n w i v HI Hpc Hfull b now) in Hs.
      discriminate.
    + simpl in Hs. destruct (goroutines w !! i0) as [pc|] eqn:Hj; [|discriminate].
      unfold bind in Hs.
      destruct (runWorker_step _ _ _ _ _) as [[p' pc']| |] eqn:HS; simplify_eq/=.
      rewrite list_lookup_insert_ne by done. split; [done|].
      destruct pc; simpl in HS;
        unfold on_done, wg_Done, recv, recv_ok, send, bind in HS;
        repeat case_match; simplify_eq/=; try done; try lia.
Qed.

Lemma blocked_publisher_run n i v tr : forall w w',
  Inv n w -> goroutines w !! i = Some (AtPublish v) ->
  cap (results (pool w)) <= length (buf (results (pool w))) ->
  Forall (fun a => consumer a = false) tr -> run w tr = Ok w' ->
  Inv n w' /\ goroutines w' !! i = Some (AtPublish v) /\
  cap (results (pool w')) <= length (buf (results (pool w'))).
Proof.
  induction tr as [|a tr IH]; intros w w' HI Hpc Hfull HF Hr; simpl in Hr.
  - simplify_eq. done.
  - unfold bind in Hr. destruct (step w a) as [w1| |] eqn:Hs; try discriminate.
    inversion HF; subst.
    destruct (blocked_publisher_step n w i v a w1) as [? ?]; auto.
    apply (IH w1 w'); eauto using inv_step.
Qed.

(** As long as the consumer does not read, a worker that has arrived at its
    send with the outbound queue full stays there, whatever the other
    workers, [Submit] and [Stop] do; [Stop] does not return. *)
Lemma abandoned_consumer_blocks_publisher nworkers queueSize w i v tr w' :
  reachable nworkers queueSize w ->
  goroutines w !! i = Some (AtPublish v) ->
  cap (results (pool w)) <= length (buf (results (pool w))) ->
  Forall (fun a => consumer a = false) tr -> run w tr = Ok w' ->
  goroutines w' !! i = Some (AtPublish v) /\
  (forall b now, step w' (AWorker i b now) = Blocked) /\
  stop w' <> StopDone.
Proof.
  intros Hr Hpc Hfull HF Hrun. apply reachable_inv in Hr.
  destruct (blocked_publisher_run _ i v tr w w' Hr Hpc Hfull HF Hrun) as (HI & Hpc' & Hfull').
  split; [done|]. split; [eauto using blocked_publisher_blocked|].
  destruct (publisher_is_live _ w' i v HI Hpc') as (_ & _ & _ & ? & _). done.
Qed.

(** *** Overflow of WorkCount *)

Lemma work_cycle_idle count acc del :
  run (idle_world count acc del) work_cycle
  = Ok (idle_world (wrap64 (count + 1)) (acc ++ [IntV 0]) (del ++ [IntV 0])).
Proof. cbv -[wrap64 Z.add]. reflexivity. Qed.

Lemma replicate_snoc {A} k (x : A) : replicate k x ++ [x] = replicate (S k) x.
Proof. induction k as [|k IH]; simpl; [done|]. now rewrite IH. Qed.

Lemma wrap64_succ k : wrap64 (wrap64 (Z.of_nat k) + 1) = wrap64 (Z.of_nat (S k)).
Proof.
  rewrite (Z.add_comm _ 1), wrap64_add_r. f_equal. lia.
Qed.

Lemma work_cycle_run k : run (cycled k) work_cycle = Ok (cycled (S k)).
Proof.
  unfold cycled. rewrite work_cycle_idle, !replicate_snoc, wrap64_succ. reflexivity.
Qed.

Lemma work_cycles_run k : run (cycled 0) (concat (replicate k work_cycle)) = Ok (cycled k).
Proof.
  induction k as [|k IH]; [reflexivity|].
  rewrite <- replicate_snoc, concat_app, (run_app_Ok _ _ _ _ IH).
  simpl concat. rewrite ?app_nil_r. apply work_cycle_run.
Qed.

Lemma cycled_reachable k : reachable 1 1 (cycled k).
Proof.
  assert (H0 : reachable 1 1 (cycled 0)).
  { apply (reachable_world_after 1 1 0%Z [AStart]). vm_compute. reflexivity. }
  eapply reachable_run; [exact H0|apply work_cycles_run].
Qed.

Lemma cycled_counts k :
  quiescent (cycled k) /\ produced (cycled k) = Z.of_nat k /\
  sum_with sWorkCount (GetWorkerStats (pool (cycled k))) = wrap64 (Z.of_nat k).
Proof.
  split; [repeat constructor|]. unfold produced, cycled, idle_world; simpl.
  rewrite length_replicate. split; lia.
Qed.

(** C9, counterexample. [WorkCount] is an int64: after 2^63 tasks through a
    pool of one worker the counter has wrapped round to -2^63, while 2^63
    results have been produced. *)
Lemma C9_counterexample :
  exists w, reachable 1 1 w /\ quiescent w /\
    produced w = (2 ^ 63)%Z /\
    sum_with sWorkCount (GetWorkerStats (pool w)) = (- 2 ^ 63)%Z.
Proof.
  exists (cycled (Z.to_nat (2 ^ 63))).
  destruct (cycled_counts (Z.to_nat (2 ^ 63))) as (Hq & Hp & Hs).
  rewrite Z2Nat.id in Hp, Hs by lia.
  split; [apply cycled_reachable|]. split; [exact Hq|]. split; [exact Hp|].
  rewrite Hs. reflexivity.
Qed.

Lemma C9_work_counts_sum_to_results_witness :
  exists w, world_after 2 10 100000000 three_tasks_run = Ok w /\
    produced w = 3%Z /\
    sWorkCount <$> GetWorkerStats (pool w) = [2; 1]%Z /\
    delivered w = [IntV 0] /\ buf (results (pool w)) = [IntV 1; IntV 2] /\
    wrap64 (sum_with sWorkCount (GetWorkerStats (pool w))) = wrap64 (produced w) /\
    ((produced w < 2 ^ 63)%Z ->
     sum_with sWorkCount (GetWorkerStats (pool w)) = produced w).
Proof.
  eexists. split; [vm_compute; reflexivity|].
  split; [vm_compute; reflexivity|]. split; [vm_compute; reflexivity|].
  split; [vm_compute; reflexivity|]. split; [vm_compute; reflexivity|].
  apply (C9_work_counts_sum_to_results 2 10).
  - apply (reachable_world_after 2 10 100000000%Z three_tasks_run).
    vm_compute; reflexivity.
  - repeat constructor.
Defined.

(** *** Further properties of the stateful pool *)

Lemma init_workers_closed_form now n : forall i lim,
  closed lim = false -> length (buf lim) + n <= cap lim ->
  init_workers now i n lim =
    Ok ((fun j => MkWorker (Z.of_nat j) (now j) 0) <$> seq i n,
        MkChan (buf lim ++ replicate n ()) (cap lim) false).
Proof.
  induction n as [|n IH]; intros i lim Hc Hl; simpl.
  - rewrite app_nil_r. destruct lim; simpl in *; subst; reflexivity.
  - unfold send. rewrite Hc. destruct (decide _) as [|]; [|lia]. simpl.
    rewrite IH by (simpl; rewrite ?length_app; simpl; lia).
    simpl. rewrite <- app_assoc. reflexivity.
Qed.

Lemma NewStatefulPool_eq nworkers queueSize rateLimit now :
  NewStatefulPool nworkers queueSize rateLimit now =
    if ((nworkers <? 0) || (queueSize <? 0))%Z then Panic MakeSizeOutOfRange
    else Ok (MkPool
               ((fun j => MkWorker (Z.of_nat j) (now j) 0) <$> seq 0 (Z.to_nat nworkers))
               (MkChan [] (Z.to_nat queueSize) false)
               (MkChan [] (Z.to_nat queueSize) false)
               (MkChan [] 0 false) 0 false
               (MkChan (replicate (Z.to_nat nworkers) ()) (Z.to_nat nworkers) false)).
Proof.
  unfold NewStatefulPool, make.
  destruct (nworkers <? 0)%Z eqn:E1; [reflexivity|].
  destruct (queueSize <? 0)%Z eqn:E2; [reflexivity|]. simpl.
  rewrite init_workers_closed_form by (simpl; lia). reflexivity.
Qed.

(** The constructor in closed form: it panics on a negative worker count or
    queue size, and otherwise makes [nworkers] workers numbered from 0 with
    no work counted, empty open queues of capacity [queueSize], and a limiter
    holding [nworkers] permits. *)
Theorem NewStatefulPool_closed_form nworkers queueSize rateLimit now :
  NewStatefulPool nworkers queueSize rateLimit now =
    if ((nworkers <? 0) || (queueSize <? 0))%Z then Panic MakeSizeOutOfRange
    else Ok (MkPool
               ((fun j => MkWorker (Z.of_nat j) (now j) 0) <$> seq 0 (Z.to_nat nworkers))
               (MkChan [] (Z.to_nat queueSize) false)
               (MkChan [] (Z.to_nat queueSize) false)
               (MkChan [] 0 false) 0 false
               (MkChan (replicate (Z.to_nat nworkers) ()) (Z.to_nat nworkers) false)).
Proof. apply NewStatefulPool_eq. Qed.



(** When [Stop] has returned, no goroutine is left: every worker has
    returned, the wait group is at zero, the context is cancelled and both
    queues are closed; and nothing but the consumer's reads and a late
    [Submit] can happen any more. *)
Theorem Stop_leaves_no_goroutine nworkers queueSize w :
  reachable nworkers queueSize w -> stop w = StopDone ->
  Forall (fun pc => pc = Exited) (goroutines w) /\
  length (goroutines w) = Z.to_nat nworkers /\
  wg (pool w) = 0 /\ ctx_done (pool w) = true /\
  closed (tasks (pool w)) = true /\ closed (results (pool w)) = true /\
  (forall i b now, step w (AWorker i b now) = Blocked) /\
  (forall i, step w (APublishTo i) = Blocked) /\
  step w AStart = Blocked.
Proof.
  intros Hr Hs. apply reachable_inv in Hr as []. rewrite Hs in *. simpl in *.
  specialize (inv_waited0 eq_refl).
  pose proof (sum_with_zero_live _ inv_waited0) as Hall.
  assert (Hsd : started w = true).
  { destruct (started w); [done|]. specialize (inv_created0 eq_refl). congruence. }
  rewrite Hsd in *.
  split_and!; auto; try lia.
  all: intros; simpl; rewrite ?Hsd; try done.
  all: destruct (goroutines w !! i) as [pc|] eqn:Hpc; [|done];
    rewrite Forall_lookup in Hall; rewrite (Hall _ _ Hpc); done.
Qed.

Lemma Stop_leaves_no_goroutine_witness :
  exists w, world_after 2 10 100000000 graceful_shutdown_run = Ok w /\
    goroutines w = [Exited; Exited] /\ wg (pool w) = 0.
Proof.
  eexists. split; [vm_compute; reflexivity|].
  split; [vm_compute; reflexivity|].
  eapply (Stop_leaves_no_goroutine 2 10).
  - apply (reachable_world_after 2 10 100000000%Z graceful_shutdown_run).
    vm_compute; reflexivity.
  - vm_compute; reflexivity.
Defined.

(** [Stop] is not idempotent: called again after it has returned, it panics
    on closing the inbound queue a second time. *)
Theorem second_Stop_panics nworkers queueSize w :
  reachable nworkers queueSize w -> stop w = StopDone ->
  step w AStop = Panic CloseOfClosedChannel.
Proof.
  intros Hr Hs. apply reachable_inv in Hr as HI. pose proof HI as [].
  assert (Hsd : started w = true).
  { destruct (started w); [done|]. specialize (inv_created0 eq_refl). congruence. }
  simpl. rewrite Hsd, Hs. simpl. unfold close, bind.
  rewrite inv_tasks_closed0, Hs. done.
Qed.

Lemma second_Stop_panics_witness :
  exists w, world_after 2 10 100000000 graceful_shutdown_run = Ok w /\
    step w AStop = Panic CloseOfClosedChannel.
Proof.
  eexists. split; [vm_compute; reflexivity|].
  apply (second_Stop_panics 2 10).
  - apply (reachable_world_after 2 10 100000000%Z graceful_shutdown_run).
    vm_compute; reflexivity.
  - vm_compute; reflexivity.
Defined.

(** Until [Stop] is called, [Submit] never returns an error and never
    panics. Its [ctx.Done] case is not ready. Its send case goes through in
    one of two ways: into the buffer of the inbound queue, at its end, when
    the buffer has room; or, when the buffer is empty, directly to a worker
    that waits at its inner select (the only way with [queueSize = 0]). In
    both ways the task is accepted; otherwise [Submit] blocks. *)
Theorem Submit_on_running_pool nworkers queueSize w task :
  reachable nworkers queueSize w -> stop w = StopIdle ->
  step w (ASubmit task OnDone) = Blocked /\
  step w (ASubmit task OnChan) =
    (if decide (length (buf (tasks (pool w))) < cap (tasks (pool w)))
     then Ok (MkWorld
                (set_tasks (pool w)
                   (MkChan (buf (tasks (pool w)) ++ [task]) (cap (tasks (pool w))) false))
                (goroutines w) (started w) (stop w) (accepted w ++ [task]) (delivered w))
     else Blocked) /\
  forall i,
    step w (ASubmitTo task i) =
      match goroutines w !! i, buf (tasks (pool w)) with
      | Some AtInner, [] =>
          Ok (MkWorld (pool w) (<[i := AtUpdate task]> (goroutines w)) (started w)
                (stop w) (accepted w ++ [task]) (delivered w))
      | _, _ => Blocked
      end.
Proof.
  intros Hr Hs. apply reachable_inv in Hr as [].
  assert (Hctx : ctx_done (pool w) = false) by (rewrite inv_ctx0, Hs; done).
  assert (Hcl : closed (tasks (pool w)) = false)
    by (rewrite inv_tasks_closed0, Hs; done).
  clear - Hctx Hcl. split_and!.
  - simpl. unfold bind. rewrite Hctx. done.
  - simpl. unfold send, bind. rewrite Hcl. destruct (decide _); done.
  - intros i. simpl. destruct (goroutines w !! i) as [[]|]; try done.
    unfold handoff, bind. rewrite Hcl.
    destruct (buf (tasks (pool w))); done.
Qed.

Lemma Submit_on_running_pool_witness :
  exists w w',
    world_after 1 0 0 [AStart; AWorker 0 OnChan 0] = Ok w /\
    step w (ASubmit (IntV 3) OnDone) = Blocked /\
    step w (ASubmit (IntV 3) OnChan) = Blocked /\
    step w (ASubmitTo (IntV 3) 0) = Ok w' /\
    goroutines w' = [AtUpdate (IntV 3)] /\ accepted w' = [IntV 3].
Proof.
  eexists. eexists.
  split; [vm_compute; reflexivity|].
  match goal with |- step ?w0 _ = _ /\ _ =>
    assert (Hr : reachable 1 0 w0)
      by (apply (reachable_world_after 1 0 0%Z [AStart; AWorker 0 OnChan 0]);
          vm_compute; reflexivity);
    assert (Hs : stop w0 = StopIdle) by (vm_compute; reflexivity);
    destruct (Submit_on_running_pool 1 0 w0 (IntV 3) Hr Hs) as (H1 & H2 & H3)
  end.
  split; [exact H1|]. split; [rewrite H2; vm_compute; reflexivity|].
  split; [rewrite H3; vm_compute; reflexivity|].
  split; reflexivity.
Defined.

Lemma permits_bounded_witness :
  exists w, world_after 1 1 0 [AStart; AWorker 0 OnChan 0] = Ok w /\
    (permits_in_circulation w <= 1)%Z /\
    (ctx_done (pool w) = false -> permits_in_circulation w = 1)%Z.
Proof.
  eexists. split; [vm_compute; reflexivity|].
  apply (permits_bounded 1 1).
  apply (reachable_world_after 1 1 0%Z [AStart; AWorker 0 OnChan 0]).
  vm_compute; reflexivity.
Defined.

Lemma step_workers w a w' :
  step w a = Ok w' ->
  workers (pool w') = workers (pool w) \/
  exists i b now t s,
    a = AWorker i b now /\ goroutines w !! i = Some (AtUpdate t) /\
    workers (pool w) !! i = Some s /\
    workers (pool w') =
      <[i := MkWorker (ID s) now (wrap64 (WorkCount s + 1))]> (workers (pool w)).
Proof.
  intros Hs. destruct a; simpl in Hs.
  - destruct (started w); simplify_eq/=. auto.
  - unfold bind in Hs. destruct (Submit _ _ _) as [r| |] eqn:HS; simplify_eq/=.
    left. destruct b; simpl in HS; unfold send, bind in HS;
      repeat case_match; simplify_eq/=; done.
  - left. unfold handoff, bind in Hs. repeat case_match; simplify_eq/=; done.
  - left. destruct (started w); [|discriminate]. unfold bind in Hs.
    destruct (Stop_step _ _) as [r| |] eqn:HS; simplify_eq/=.
    destruct (stop w); simpl in HS; unfold close, bind in HS;
      repeat case_match; simplify_eq/=; done.
  - destruct (goroutines w !! i) as [pc|] eqn:Hpc; [|discriminate].
    unfold bind in Hs.
    destruct (runWorker_step _ _ _ _ _) as [r| |] eqn:HS; simplify_eq/=.
    destruct pc; simpl in HS;
      unfold on_done, wg_Done, recv, recv_ok, send, bind in HS;
      repeat case_match; simplify_eq/=; auto.
    right. eauto 10.
  - left. unfold handoff, bind in Hs. repeat case_match; simplify_eq/=; done.
  - left. repeat case_match; simplify_eq/=; done.
Qed.

(** A worker's record is written only by that worker, in its update step:
    there [LastWork] becomes the time of the step and [WorkCount] grows by
    one; every other step, of whomever, leaves all records as they are. *)
Theorem worker_state_written_by_owner_only w a w' :
  step w a = Ok w' ->
  workers (pool w') = workers (pool w) \/
  exists i b now t s,
    a = AWorker i b now /\ goroutines w !! i = Some (AtUpdate t) /\
    workers (pool w) !! i = Some s /\
    workers (pool w') =
      <[i := MkWorker (ID s) now (wrap64 (WorkCount s + 1))]> (workers (pool w)).
Proof. apply step_workers. Qed.

Lemma worker_state_written_by_owner_only_witness :
  exists w w',
    world_after 2 1 0 [AStart; ASubmit (IntV 1) OnChan; AWorker 1 OnChan 0;
                       AWorker 1 OnChan 0] = Ok w /\
    step w (AWorker 1 OnChan 42) = Ok w' /\
    workers (pool w') = [MkWorker 0 0 0; MkWorker 1 42 1]%Z /\
    (workers (pool w') = workers (pool w) \/
     exists i b now t s,
       AWorker 1 OnChan 42 = AWorker i b now /\
       goroutines w !! i = Some (AtUpdate t) /\
       workers (pool w) !! i = Some s /\
       workers (pool w') =
         <[i := MkWorker (ID s) now (wrap64 (WorkCount s + 1))]> (workers (pool w))).
Proof.
  do 2 eexists. split; [vm_compute; reflexivity|].
  split; [vm_compute; reflexivity|]. split; [vm_compute; reflexivity|].
  eapply worker_state_written_by_owner_only. vm_compute; reflexivity.
Defined.

Lemma step_keeps_ids w a w' :
  step w a = Ok w' -> ID <$> workers (pool w') = ID <$> workers (pool w).
Proof.
  intros Hs.
  destruct (step_workers _ _ _ Hs)
    as [->|(i & b & now & t & s & _ & _ & Hi & ->)]; [done|].
  rewrite list_fmap_insert. simpl. apply list_insert_id.
  rewrite list_lookup_fmap, Hi. done.
Qed.

Lemma run_keeps_ids tr : forall w w',
  run w tr = Ok w' -> ID <$> workers (pool w') = ID <$> workers (pool w).
Proof.
  induction tr as [|a tr IH]; intros w w' Hr; simpl in Hr; [congruence|].
  unfold bind in Hr. destruct (step w a) as [w1| |] eqn:Hs; try discriminate.
  rewrite (IH _ _ Hr). eauto using step_keeps_ids.
Qed.

(** [GetWorkerStats] always returns one entry per worker, the entry of
    worker [i] at index [i] with [ID = i], whatever the pool has done. *)
Theorem GetWorkerStats_one_entry_per_worker nworkers queueSize w :
  reachable nworkers queueSize w ->
  sID <$> GetWorkerStats (pool w) = Z.of_nat <$> seq 0 (Z.to_nat nworkers).
Proof.
  intros (d & now & p & tr & Hp & Hr).
  unfold GetWorkerStats. rewrite <- list_fmap_compose.
  change (sID ∘ _) with ID. rewrite (run_keeps_ids _ _ _ Hr). simpl.
  rewrite NewStatefulPool_eq in Hp.
  destruct (_ || _)%bool; simplify_eq/=.
  rewrite <- list_fmap_compose. reflexivity.
Qed.

Lemma GetWorkerStats_one_entry_per_worker_witness :
  exists w, world_after 2 10 100000000 graceful_shutdown_run = Ok w /\
    sID <$> GetWorkerStats (pool w) = [0; 1]%Z.
Proof.
  eexists. split; [vm_compute; reflexivity|].
  apply (GetWorkerStats_one_entry_per_worker 2 10).
  apply (reachable_world_after 2 10 100000000%Z graceful_shutdown_run).
  vm_compute; reflexivity.
Defined.

(** *** A single worker serves in submission order *)

Lemma carrying_fresh (l : list StatefulWorker) :
  concat (carrying <$> ((fun _ => AtOuter) <$> l)) = [].
Proof. induction l; [done|]. rewrite !fmap_cons. simpl. done. Qed.

Lemma fifo_step n w a w' :
  Inv n w -> length (goroutines w) <= 1 -> stop w' = StopIdle ->
  step w a = Ok w' ->
  accepted w = delivered w ++ buf (results (pool w)) ++
               concat (carrying <$> goroutines w) ++ buf (tasks (pool w)) ->
  accepted w' = delivered w' ++ buf (results (pool w')) ++
                concat (carrying <$> goroutines w') ++ buf (tasks (pool w')).
Proof.
  intros [] Hlen Hst Hs Hacc.
  destruct w as [p gs st sp acc del]; destruct p as [ws tk rs dn g cx rl].
  simpl in *. subst acc. destruct gs as [|pc [|? ?]]; simpl in Hlen; try lia.
  all: destruct a; simpl in Hs;
    try (destruct i; simpl in Hs; [|discriminate]);
    try discriminate.
  all: try match type of Hs with
    | context [runWorker_step _ _ ?pc ?b _] => destruct pc, b; simpl in Hs
    | context [match ?pc with AtOuter => _ | _ => _ end] => destruct pc; try discriminate
    end.
  all: unfold Submit, Stop_step, Start, handoff, close, send, recv, recv_ok,
         on_done, wg_Done, bind in Hs; simpl in Hs;
       repeat case_match; simplify_eq/=; try congruence.
  all: rewrite ?carrying_fresh, ?app_nil_r, <- ?app_assoc; simpl;
       repeat match goal with H : buf _ = _ |- _ => rewrite H in * end;
       rewrite ?app_nil_r, <- ?app_assoc; simpl; try done; try (simpl in *; lia).
Qed.

Lemma stop_idle_before w a w' :
  step w a = Ok w' -> stop w' = StopIdle -> stop w = StopIdle.
Proof.
  intros Hs Hst. destruct a; simpl in Hs; unfold bind in Hs;
    repeat case_match; simplify_eq/=; try done.
  match goal with H : Stop_step _ ?s = _ |- _ =>
    destruct s; simpl in H; unfold close, bind in H;
    repeat case_match; simplify_eq/= end.
Qed.

Lemma run_snoc_inv tr a : forall w w',
  run w (tr ++ [a]) = Ok w' -> exists w1, run w tr = Ok w1 /\ step w1 a = Ok w'.
Proof.
  intros w w' H. rewrite run_app in H. unfold bind in H.
  destruct (run w tr) as [w1| |]; try discriminate.
  exists w1. split; [done|]. simpl in H. destruct (step w1 a); simplify_eq/=; done.
Qed.

Lemma fifo_run n tr : forall w w',
  Inv n w -> n <= 1 -> run w tr = Ok w' -> stop w' = StopIdle ->
  accepted w = delivered w ++ buf (results (pool w)) ++
               concat (carrying <$> goroutines w) ++ buf (tasks (pool w)) ->
  accepted w' = delivered w' ++ buf (results (pool w')) ++
                concat (carrying <$> goroutines w') ++ buf (tasks (pool w')).
Proof.
  induction tr as [|a tr IH] using rev_ind; intros w w' HI Hn Hr Hst Hacc.
  - simpl in Hr. simplify_eq. exact Hacc.
  - apply run_snoc_inv in Hr as (w1 & Hr1 & Hs).
    pose proof (inv_run _ _ _ _ HI Hr1) as HI1.
    apply (fifo_step n w1 a w' HI1); auto.
    + destruct HI1. destruct (started w1); lia.
    + apply (IH w w1); eauto using stop_idle_before.
Qed.

(** With a single worker, while the pool runs, the tasks pass through in
    the order of their submission: what the consumer has received, what
    waits in the outbound queue, what the worker holds and what waits in the
    inbound queue, in this order, is the list of accepted tasks. *)
Theorem single_worker_serves_in_submission_order queueSize w :
  reachable 1 queueSize w -> stop w = StopIdle ->
  accepted w = delivered w ++ buf (results (pool w)) ++
               concat (carrying <$> goroutines w) ++ buf (tasks (pool w)).
Proof.
  intros (d & now & p & tr & Hp & Hr) Hst.
  eapply (fifo_run 1 tr (created p)); eauto using created_inv.
  - apply (created_inv 1 queueSize d now p Hp).
  - rewrite NewStatefulPool_eq in Hp.
    destruct (_ || _)%bool; simplify_eq/=. reflexivity.
Qed.

Lemma single_worker_serves_in_submission_order_witness :
  exists w, world_after 1 1 0 abandoned_consumer_run = Ok w /\
    accepted w = [IntV 1; IntV 2] /\
    accepted w = delivered w ++ buf (results (pool w)) ++
                 concat (carrying <$> goroutines w) ++ buf (tasks (pool w)).
Proof.
  eexists. split; [vm_compute; reflexivity|]. split; [vm_compute; reflexivity|].
  apply (single_worker_serves_in_submission_order 1).
  - apply (reachable_world_after 1 1 0%Z abandoned_consumer_run). vm_compute; reflexivity.
  - vm_compute; reflexivity.
Defined.

(** *** Results for tasks nobody submitted *)

(** Once [Stop] has closed the inbound queue, a worker that waits at its
    inner select with the queue empty can still take the receive case: it
    receives nil, counts it in its [WorkCount] and, if the outbound queue has
    room, publishes nil as a result, although no task was accepted for it. *)
Theorem closed_queue_yields_nil_result nworkers queueSize w i now :
  reachable nworkers queueSize w -> closed (tasks (pool w)) = true ->
  buf (tasks (pool w)) = [] -> goroutines w !! i = Some AtInner ->
  length (buf (results (pool w))) < cap (results (pool w)) ->
  exists w' s,
    run w [AWorker i OnChan now; AWorker i OnChan now; AWorker i OnChan now;
           AWorker i OnChan now] = Ok w' /\
    goroutines w' = <[i := AtRelease]> (goroutines w) /\
    buf (results (pool w')) = buf (results (pool w)) ++ [Nil] /\
    accepted w' = accepted w /\
    workers (pool w) !! i = Some s /\
    workers (pool w') !! i = Some (MkWorker (ID s) now (wrap64 (WorkCount s + 1))).
Proof.
  intros Hr Hc Hb Hpc Hroom. apply reachable_inv in Hr as HI. pose proof HI as [].
  pose proof (sum_with_bounds live _ _ _ live_bounds Hpc) as Hl. simpl in Hl.
  assert (Hlt : i < length (goroutines w)) by (eapply lookup_lt_Some; eauto).
  assert (Hsd : started w = true).
  { destruct (started w); [done|]. rewrite inv_goroutines0 in Hlt. lia. }
  rewrite Hsd in *.
  assert (is_Some (workers (pool w) !! i)) as [s Hs].
  { apply lookup_lt_is_Some. lia. }
  assert (Hopen : closed (results (pool w)) = false).
  { rewrite inv_results_closed0. destruct (stop w); try done.
    specialize (inv_waited0 eq_refl). lia. }
  destruct w as [p gs st sp acc del]; destruct p as [ws tk rs dn g cx rl].
  simpl in *. subst.
  eexists. exists s. cbn [run]. cbn [step goroutines pool]. rewrite Hpc.
  cbn [runWorker_step tasks]. unfold recv, recv_ok, bind at 2. cbn [buf closed].
  rewrite Hb, Hc. cbn [bind fst snd default].
  cbn [step goroutines pool]. rewrite list_lookup_insert_eq by done.
  cbn [bind runWorker_step set_tasks workers]. rewrite Hs. cbn [bind fst snd].
  cbn [step goroutines pool]. rewrite list_lookup_insert_eq by (rewrite length_insert; done).
  cbn [bind runWorker_step set_workers workers].
  rewrite list_lookup_insert_eq by (apply lookup_lt_Some in Hs; done).
  cbn [bind fst snd].
  cbn [step goroutines pool].
  rewrite list_lookup_insert_eq by (rewrite !length_insert; done).
  cbn [bind runWorker_step results set_workers set_tasks processTask].
  unfold send. cbn [closed buf cap]. rewrite Hopen.
  destruct (decide _) as [|]; [|lia]. cbn [bind fst snd].
  split; [reflexivity|].
  cbn [goroutines pool results set_results set_workers set_tasks buf accepted workers].
  rewrite !list_insert_insert_eq.
  split_and!; try done.
  apply list_lookup_insert_eq. apply lookup_lt_Some in Hs. done.
Qed.

Lemma closed_queue_yields_nil_result_witness :
  exists w,
    world_after 1 1 0 [AStart; AWorker 0 OnChan 0; AStop; AStop] = Ok w /\
    accepted w = [] /\
    exists w' s,
      run w [AWorker 0 OnChan 5%Z; AWorker 0 OnChan 5%Z; AWorker 0 OnChan 5%Z;
             AWorker 0 OnChan 5%Z] = Ok w' /\
      goroutines w' = <[0 := AtRelease]> (goroutines w) /\
      buf (results (pool w')) = buf (results (pool w)) ++ [Nil] /\
      accepted w' = accepted w /\
      workers (pool w) !! 0 = Some s /\
      workers (pool w') !! 0 = Some (MkWorker (ID s) 5%Z (wrap64 (WorkCount s + 1))).
Proof.
  eexists. split; [vm_compute; reflexivity|]. split; [vm_compute; reflexivity|].
  apply (closed_queue_yields_nil_result 1 1).
  - apply (reachable_world_after 1 1 0%Z [AStart; AWorker 0 OnChan 0; AStop; AStop]).
    vm_compute; reflexivity.
  - vm_compute; reflexivity.
  - vm_compute; reflexivity.
  - vm_compute; reflexivity.
  - apply Nat.ltb_lt. vm_compute; reflexivity.
Defined.

End StatefulPoolFacts.

(** ** The metrics collector *)

Module MetricsFacts.
Import monitor.

Lemma quot_bounds d p :
  (0 < p)%Z -> (Z.min 0 d <= Z.quot d p <= Z.max 0 d)%Z.
Proof.
  intros Hp. destruct (Z.le_gt_cases 0 d) as [Hd|Hd].
  - rewrite Z.quot_div_nonneg by lia.
    pose proof (Z.div_pos d p Hd Hp).
    assert (d / p <= d)%Z by (apply Z.div_le_upper_bound; nia). lia.
  - replace d with (- (- d))%Z by lia. rewrite Z.quot_opp_l by lia.
    rewrite Z.quot_div_nonneg by lia.
    pose proof (Z.div_pos (- d) p ltac:(lia) Hp).
    assert (- d / p <= - d)%Z by (apply Z.div_le_upper_bound; nia). lia.
Qed.

(** C8 (amended). [GetMetrics()] returns [(processed, errors, average)];
    the average is 0 when [processed] is 0, and the cumulative duration
    divided by [processed], rounded towards zero, when
    [0 < processed < 2^63]. *)
Theorem C8_GetMetrics_average m :
  wf m -> (processed m < 2 ^ 63)%Z ->
  GetMetrics m =
    (processed m, errors m,
     if (0 <? processed m)%Z then Z.quot (duration m) (processed m) else 0%Z).
Proof.
  intros (Hp & He & Hd) Hlt. unfold GetMetrics.
  destruct (0 <? processed m)%Z eqn:E.
  - assert ((processed m >? 0)%Z = true) as -> by lia.
    unfold div64. rewrite (wrap64_small (processed m)) by lia.
    pose proof (quot_bounds (duration m) (processed m) ltac:(lia)).
    rewrite wrap64_small by lia. reflexivity.
  - assert ((processed m >? 0)%Z = false) as -> by lia. reflexivity.
Qed.

Lemma C8_GetMetrics_average_witness :
  GetMetrics (MkMetrics 3 1 (-10)) = (3, 1, -3)%Z.
Proof.
  apply (C8_GetMetrics_average (MkMetrics 3 1 (-10))).
  - unfold wf; simpl; lia.
  - simpl; lia.
Defined.

(** C8, counterexample. For [processed >= 2^63] the conversion
    [time.Duration(processed)] is negative: with [processed = 2^64 - 1] and a
    cumulative duration of 5 the average returned is -5, not 5 / (2^64 - 1)
    = 0. *)
Lemma C8_counterexample :
  wf (MkMetrics (2 ^ 64 - 1) 0 5) /\
  (processed (MkMetrics (2 ^ 64 - 1) 0 5) > 0)%Z /\
  GetMetrics (MkMetrics (2 ^ 64 - 1) 0 5) = (2 ^ 64 - 1, 0, -5)%Z /\
  Z.quot 5 (2 ^ 64 - 1) = 0%Z.
Proof. unfold wf. simpl. split_and!; try lia; vm_compute; reflexivity. Qed.

End MetricsFacts.

(** ** The request/response worker pool *)

Module WorkerPoolFacts.
Import processor.

Lemma try_send_not_blocked {A} (c : chan A) v : try_send c v <> Blocked.
Proof. unfold try_send, send. repeat case_match; simplify_eq; done. Qed.

Lemma try_send_full {A} (c : chan A) v :
  closed c = false -> cap c <= length (buf c) -> try_send c v = Ok c.
Proof.
  intros Hc Hf. unfold try_send, send. rewrite Hc.
  destruct (decide _); [lia|done].
Qed.

Lemma try_send_room {A} (c : chan A) v :
  closed c = false -> length (buf c) < cap c ->
  try_send c v = Ok (MkChan (buf c ++ [v]) (cap c) false).
Proof.
  intros Hc Hf. unfold try_send, send. rewrite Hc.
  destruct (decide _); [done|lia].
Qed.

(** C5 (amended). In [processor.WorkerPool] a worker publishes with a
    non-blocking send: it never blocks, and drops the value when the channel
    is full; a round of the worker that has a request never blocks, and
    leaves the result in the response channel of the request if that has
    room and drops it if not. In [StatefulPool] the send on the outbound
    queue goes through only if the queue has room, or if the consumer waits
    on the empty queue and takes the value directly, and blocks otherwise:
    as long as the consumer does not read, a worker that has arrived at its
    send with the queue full stays there, and [Stop] does not return. *)
Theorem C5_publish_blocks_in_StatefulPool_only :
  (forall (c : chan ProcessResult) v,
     try_send c v <> Blocked /\
     (closed c = false -> cap c <= length (buf c) -> try_send c v = Ok c)) /\
  (forall process ctx_done id p req rest,
     buf (requests p) = req :: rest ->
     worker_round process ctx_done id p <> Blocked) /\
  (forall process id p req rest result err,
     buf (requests p) = req :: rest -> closed (errors p) = false ->
     closed (ResponseChan req) = false ->
     process (FilePath req) = Returns result err ->
     exists p',
       worker_round process false id p =
         Ok (p', Served
                   (MkChan
                      (if decide (length (buf (ResponseChan req)) < cap (ResponseChan req))
                       then buf (ResponseChan req) ++ [result]
                       else buf (ResponseChan req))
                      (cap (ResponseChan req)) true))) /\
  (forall p id res b now,
     closed (concurrency.results p) = false ->
     concurrency.runWorker_step p id (concurrency.AtPublish res) b now =
       if decide (length (buf (concurrency.results p)) < cap (concurrency.results p))
       then Ok (concurrency.set_results p
                  (MkChan (buf (concurrency.results p) ++ [res])
                     (cap (concurrency.results p)) false),
                concurrency.AtRelease)
       else Blocked) /\
  (forall w i res,
     concurrency.goroutines w !! i = Some (concurrency.AtPublish res) ->
     closed (concurrency.results (concurrency.pool w)) = false ->
     concurrency.step w (concurrency.APublishTo i) =
       match buf (concurrency.results (concurrency.pool w)) with
       | [] =>
           Ok (concurrency.MkWorld (concurrency.pool w)
                 (<[i := concurrency.AtRelease]> (concurrency.goroutines w))
                 (concurrency.started w) (concurrency.stop w) (concurrency.accepted w)
                 (concurrency.delivered w ++ [res]))
       | _ :: _ => Blocked
       end) /\
  (forall nworkers queueSize w i res tr w',
     concurrency.reachable nworkers queueSize w ->
     concurrency.goroutines w !! i = Some (concurrency.AtPublish res) ->
     cap (concurrency.results (concurrency.pool w))
       <= length (buf (concurrency.results (concurrency.pool w))) ->
     Forall (fun a => concurrency.consumer a = false) tr ->
     concurrency.run w tr = Ok w' ->
     concurrency.goroutines w' !! i = Some (concurrency.AtPublish res) /\
     (forall b now, concurrency.step w' (concurrency.AWorker i b now) = Blocked) /\
     concurrency.stop w' <> concurrency.StopDone).
Proof.
  split_and!.
  - intros c v. split; [apply try_send_not_blocked|apply try_send_full].
  - intros process ctx_done id p req rest Hb.
    unfold worker_round, recv_ok, bind. rewrite Hb. simpl.
    destruct ctx_done.
    + unfold deferred, close, bind. repeat case_match; simplify_eq; done.
    + destruct (process (FilePath req)) as [result err|]; [|done].
      assert (He : forall e, try_send (errors p) e <> Blocked)
        by (intros; apply try_send_not_blocked).
      pose proof (try_send_not_blocked (ResponseChan req) result) as Hr.
      destruct err as [e|]; [specialize (He e);
        destruct (try_send (errors p) e); try done|];
        destruct (try_send (ResponseChan req) result) as [c| |]; try done;
        unfold close; destruct (closed c); done.
  - intros process id p req rest result err Hb He Hc Hp.
    unfold worker_round, recv_ok, bind. rewrite Hb. simpl. rewrite Hp.
    assert (Herr : exists errs,
              match err with
              | Some e => try_send (errors p) e
              | None => Ok (errors p)
              end = Ok errs).
    { destruct err as [e|]; [|eauto].
      destruct (decide (length (buf (errors p)) < cap (errors p))).
      - rewrite try_send_room by done. eauto.
      - rewrite try_send_full by (done || lia). eauto. }
    destruct Herr as [errs ->].
    destruct (decide (length (buf (ResponseChan req)) < cap (ResponseChan req))).
    + rewrite try_send_room by done. unfold close. simpl. eauto.
    + rewrite try_send_full by (done || lia). unfold close. rewrite Hc.
      destruct (ResponseChan req); simpl in *; subst; eauto.
  - intros p id res b now Hc. simpl. unfold send, bind. rewrite Hc.
    destruct (decide _); done.
  - intros w i res Hpc Hc. simpl. rewrite Hpc. unfold handoff, bind. rewrite Hc.
    destruct (buf _); done.
  - apply StatefulPoolFacts.abandoned_consumer_blocks_publisher.
Qed.

Lemma C5_publish_blocks_in_StatefulPool_only_witness :
  (exists p',
     worker_round sample_processor false 0 (sample_pool ["a.txt"]) =
       Ok (p', Served (MkChan [MkResult (MkFileInfo "a.txt" 12 0 0 "text") 1 2 12 None 5]
                         1 true))) /\
  (exists p',
     worker_round sample_processor false 0
       (MkWorkerPool 1
          (MkChan [MkRequest "a.txt"
                     (MkChan [MkResult (MkFileInfo "old.txt" 0 0 0 "text") 0 0 0 None 0]
                        1 false)] 2 false)
          (MkChan [] 0 false) (MkChan [] 1 false)) =
       Ok (p', Served (MkChan [MkResult (MkFileInfo "old.txt" 0 0 0 "text") 0 0 0 None 0]
                         1 true))) /\
  (exists w w',
     concurrency.world_after 1 1 0
       [concurrency.AStart; concurrency.ASubmit (concurrency.IntV 1) concurrency.OnChan;
        concurrency.AWorker 0 concurrency.OnChan 0;
        concurrency.AWorker 0 concurrency.OnChan 0;
        concurrency.AWorker 0 concurrency.OnChan 0;
        concurrency.AWorker 0 concurrency.OnChan 0] = Ok w /\
     concurrency.step w (concurrency.APublishTo 0) = Ok w' /\
     concurrency.delivered w' = [concurrency.IntV 1] /\
     concurrency.goroutines w' = [concurrency.AtRelease]) /\
  (exists w w',
     concurrency.world_after 1 1 0 concurrency.abandoned_consumer_run = Ok w /\
     concurrency.run w
       [concurrency.ASubmit (concurrency.IntV 3) concurrency.OnChan;
        concurrency.AStop; concurrency.AStop] = Ok w' /\
     concurrency.goroutines w' !! 0
       = Some (concurrency.AtPublish (concurrency.IntV 2)) /\
     (forall b now, concurrency.step w' (concurrency.AWorker 0 b now) = Blocked) /\
     concurrency.stop w' <> concurrency.StopDone).
Proof.
  pose proof C5_publish_blocks_in_StatefulPool_only as (_ & _ & H3 & _ & H5 & H6).
  split_and!.
  - apply (H3 sample_processor 0%Z (sample_pool ["a.txt"]) (new_request "a.txt") []
             (MkResult (MkFileInfo "a.txt" 12 0 0 "text") 1 2 12 None 5) None);
      reflexivity.
  - apply (H3 sample_processor 0%Z _
             (MkRequest "a.txt"
                (MkChan [MkResult (MkFileInfo "old.txt" 0 0 0 "text") 0 0 0 None 0] 1 false))
             [] (MkResult (MkFileInfo "a.txt" 12 0 0 "text") 1 2 12 None 5) None);
      reflexivity.
  - eexists. eexists. split; [vm_compute; reflexivity|].
    match goal with |- concurrency.step ?w0 _ = _ /\ _ =>
      pose proof (H5 w0 0 (concurrency.IntV 1)
                    ltac:(vm_compute; reflexivity) ltac:(vm_compute; reflexivity)) as H
    end.
    split; [rewrite H; vm_compute; reflexivity|]. split; reflexivity.
  - eexists. eexists. split; [vm_compute; reflexivity|].
    match goal with |- concurrency.run ?w0 ?tr = _ /\ _ =>
      assert (Hr : concurrency.reachable 1 1 w0)
        by (apply (StatefulPoolFacts.reachable_world_after 1 1 0%Z
                     concurrency.abandoned_consumer_run); vm_compute; reflexivity);
      pose proof (fun w' =>
                    H6 1%Z 1%Z w0 0 (concurrency.IntV 2) tr w' Hr
                      ltac:(vm_compute; reflexivity) ltac:(vm_compute; lia)
                      ltac:(repeat constructor)) as H
    end.
    split; [vm_compute; reflexivity|]. apply H. vm_compute; reflexivity.
Defined.

(** C7 (amended). When the processor returns, with or without an error, the
    worker sends the error (if any) to the error channel unless that is
    full, delivers the result on the response channel of the request, closes
    it, and goes on with its loop. When the processor panics, the panic is
    not recovered: it leaves the loop. *)
Theorem C7_errors_captured_panics_not_recovered process id p path rest :
  buf (requests p) = new_request path :: rest ->
  closed (errors p) = false ->
  match process path with
  | Returns result err =>
      worker_round process false id p =
        Ok (MkWorkerPool (size p)
              (MkChan rest (cap (requests p)) (closed (requests p)))
              (done p)
              (match err with
               | Some e =>
                   if decide (length (buf (errors p)) < cap (errors p))
                   then MkChan (buf (errors p) ++ [e]) (cap (errors p)) false
                   else errors p
               | None => errors p
               end),
            Served (MkChan [result] 1 true))
  | Panics => worker_round process false id p = Panic ProcessorPanic
  end.
Proof.
  intros Hb Hc. unfold worker_round, recv_ok, bind. rewrite Hb. simpl.
  destruct (process path) as [result err|]; [|reflexivity].
  destruct err as [e|]; simpl.
  - destruct (decide (length (buf (errors p)) < cap (errors p))) as [Hr|Hf].
    + rewrite try_send_room by done. reflexivity.
    + rewrite try_send_full by (done || lia). reflexivity.
  - reflexivity.
Qed.

Lemma C7_errors_captured_panics_not_recovered_witness :
  exists q r,
    worker_round sample_processor false 0 (sample_pool ["missing.txt"; "a.txt"])
    = Ok (q, Served r) /\
    buf (errors q) = [ProcessError "open"] /\ closed r = true /\
    buf (requests q) = [new_request "a.txt"].
Proof.
  do 2 eexists.
  pose proof (C7_errors_captured_panics_not_recovered sample_processor 0
                (sample_pool ["missing.txt"; "a.txt"]) "missing.txt"
                [new_request "a.txt"] eq_refl eq_refl) as H.
  simpl in H. split; [exact H|]. split_and!; reflexivity.
Defined.

(** C7, counterexample. A processor that panics on a file: the round of the
    worker serving it ends in the panic; no result is delivered and the
    worker does not go on. *)
Lemma C7_counterexample :
  worker_round sample_processor false 0 (sample_pool ["bad.txt"; "a.txt"])
  = Panic ProcessorPanic.
Proof. vm_compute. reflexivity. Qed.

End WorkerPoolFacts.

(** ** Calls on the metrics collector *)

Module MetricsLaws.
Import monitor.

Lemma wrapU64_add a b : wrapU64 (wrapU64 a + b) = wrapU64 (a + b).
Proof. unfold wrapU64. now rewrite Zplus_mod_idemp_l. Qed.

Lemma wrap64_add_l a b : wrap64 (wrap64 a + b) = wrap64 (a + b).
Proof. rewrite (Z.add_comm _ b), wrap64_add_r. f_equal. lia. Qed.

Lemma wrapU64_small z : (0 <= z < 2 ^ 64)%Z -> wrapU64 z = z.
Proof. intros H. unfold wrapU64. now rewrite Z.mod_small. Qed.

Lemma after_calls_counters cs : forall m,
  wrapU64 (processed (after_calls m cs)) = wrapU64 (processed m + processed_calls cs) /\
  wrapU64 (errors (after_calls m cs)) = wrapU64 (errors m + error_calls cs) /\
  wrap64 (duration (after_calls m cs)) = wrap64 (duration m + total_duration cs).
Proof.
  unfold processed_calls, error_calls.
  induction cs as [|c cs IH]; intros m.
  - simpl. rewrite !Z.add_0_r. done.
  - destruct (IH (apply_call m c)) as (H1 & H2 & H3).
    change (after_calls m (c :: cs)) with (after_calls (apply_call m c) cs).
    rewrite H1, H2, H3. destruct c; simpl; rewrite ?Nat2Z.inj_succ;
      rewrite ?wrapU64_add, ?wrap64_add_l; split_and!; try done; f_equal; lia.
Qed.

Lemma wf_after_calls cs : forall m, wf m -> wf (after_calls m cs).
Proof.
  induction cs as [|c cs IH]; intros m Hm; [exact Hm|].
  change (after_calls m (c :: cs)) with (after_calls (apply_call m c) cs).
  apply IH. destruct Hm as (Hp & He & Hd).
  pose proof (Z.mod_pos_bound (processed m + 1) (2 ^ 64)).
  pose proof (Z.mod_pos_bound (errors m + 1) (2 ^ 64)).
  destruct c as [| |d];
    try pose proof (Z.mod_pos_bound (duration m + d + 2 ^ 63) (2 ^ 64));
    unfold wf, apply_call, IncrementProcessed, IncrementErrors, AddDuration,
      wrapU64, wrap64; cbn [processed errors duration]; lia.
Qed.

Lemma GetMetrics_in_range m :
  wf m -> (processed m < 2 ^ 63)%Z ->
  GetMetrics m =
    (processed m, errors m,
     if (0 <? processed m)%Z then Z.quot (duration m) (processed m) else 0%Z).
Proof.
  intros (Hp & He & Hd) Hlt. unfold GetMetrics.
  destruct (0 <? processed m)%Z eqn:E.
  - assert ((processed m >? 0)%Z = true) as -> by lia.
    unfold div64. rewrite (wrap64_small (processed m)) by lia.
    pose proof (MetricsFacts.quot_bounds (duration m) (processed m) ltac:(lia)).
    rewrite wrap64_small by lia. reflexivity.
  - assert ((processed m >? 0)%Z = false) as -> by lia. reflexivity.
Qed.

(** The counters are independent and order does not matter: after any
    sequence of calls on a new collector (made with a positive report
    interval, as [time.NewTicker] requires), as long as fewer than 2^63
    [IncrementProcessed] calls and fewer than 2^64 [IncrementErrors] calls
    were made and the sum of the added durations fits an int64, [GetMetrics]
    returns the number of [IncrementProcessed] calls, the number of
    [IncrementErrors] calls, and the sum of the durations divided by the
    former (0 if there was none). *)
Theorem GetMetrics_after_calls reportInterval cs :
  (0 < reportInterval)%Z ->
  (processed_calls cs < 2 ^ 63)%Z -> (error_calls cs < 2 ^ 64)%Z ->
  (- 2 ^ 63 <= total_duration cs < 2 ^ 63)%Z ->
  GetMetrics (after_calls (NewMetricsCollector reportInterval) cs) =
    (processed_calls cs, error_calls cs,
     if (0 <? processed_calls cs)%Z
     then Z.quot (total_duration cs) (processed_calls cs) else 0%Z).
Proof.
  intros _ Hp He Hd.
  set (m := after_calls (NewMetricsCollector reportInterval) cs).
  assert (Hwf0 : wf (NewMetricsCollector reportInterval)) by (unfold wf; simpl; lia).
  pose proof (wf_after_calls cs _ Hwf0) as Hwf. fold m in Hwf.
  destruct (after_calls_counters cs (NewMetricsCollector reportInterval)) as (H1 & H2 & H3).
  fold m in H1, H2, H3. simpl in H1, H2, H3.
  assert (0 <= processed_calls cs)%Z by (unfold processed_calls; lia).
  assert (0 <= error_calls cs)%Z by (unfold error_calls; lia).
  destruct Hwf as (Hwp & Hwe & Hwd).
  rewrite !wrapU64_small in H1, H2 by lia.
  rewrite !wrap64_small in H3 by lia.
  rewrite (GetMetrics_in_range m).
  - rewrite H1, H2, H3. reflexivity.
  - unfold wf. lia.
  - lia.
Qed.

Lemma GetMetrics_after_calls_witness :
  GetMetrics (after_calls (NewMetricsCollector 1000%Z)
                [CallIncrementProcessed; CallAddDuration 7%Z; CallIncrementErrors;
                 CallAddDuration 4%Z; CallIncrementProcessed])
  = (2, 1, 5)%Z.
Proof.
  apply (GetMetrics_after_calls 1000%Z
           [CallIncrementProcessed; CallAddDuration 7%Z; CallIncrementErrors;
            CallAddDuration 4%Z; CallIncrementProcessed]); vm_compute; done.
Defined.

End MetricsLaws.

(** ** The loop of the request/response worker pool *)

Module WorkerLoopFacts.
Import processor WorkerPoolFacts.

Lemma NewWorkerPool_closed_form size :
  (size < 2 ^ 62)%Z ->
  NewWorkerPool size =
    Ok (MkWorkerPool (Z.max 1 size)
          (MkChan [] (Z.to_nat (2 * Z.max 1 size)) false)
          (MkChan [] 0 false)
          (MkChan [] (Z.to_nat (Z.max 1 size)) false)).
Proof.
  intros H. unfold NewWorkerPool, make, bind.
  destruct (size <=? 0)%Z eqn:E.
  - replace (Z.max 1 size) with 1%Z by lia. reflexivity.
  - replace (Z.max 1 size) with size by lia.
    rewrite wrap64_small by lia.
    destruct (size * 2 <? 0)%Z eqn:E1; [lia|].
    destruct (0 <? 0)%Z eqn:E2; [lia|].
    destruct (size <? 0)%Z eqn:E3; [lia|].
    rewrite (Z.mul_comm size 2). reflexivity.
Qed.

Lemma Submit_many paths : forall p,
  closed (requests p) = false ->
  length (buf (requests p)) + length paths <= cap (requests p) ->
  exists p',
    foldl (fun r path => let* q := r in let* s := Submit q path SendRequest in Ok s.1)
      (Ok p) paths = Ok p' /\
    requests p' = MkChan (buf (requests p) ++ (new_request <$> paths))
                    (cap (requests p)) false /\
    size p' = size p /\ done p' = done p /\ errors p' = errors p.
Proof.
  induction paths as [|path paths IH]; intros p Hc Hl.
  - exists p. simpl. rewrite app_nil_r. destruct p as [? [] ? ?]; simpl in *; subst. done.
  - simpl in Hl. simpl foldl. unfold bind at 2 3. unfold Submit, send. rewrite Hc.
    destruct (decide _) as [|]; [|lia]. simpl.
    edestruct (IH (MkWorkerPool (size p)
                 (MkChan (buf (requests p) ++ [MkRequest path (MkChan [] 1 false)])
                    (cap (requests p)) false) (done p) (errors p)))
      as (p' & Hf & Hr & Hs & Hd & He); simpl; rewrite ?length_app; simpl; try lia; try done.
    exists p'. split; [exact Hf|]. rewrite Hr. simpl. rewrite <- app_assoc. done.
Qed.

(** Backpressure. A pool made by [NewWorkerPool(size)] (for [size < 2^62])
    whose workers do not run accepts [2 * max(1, size)] requests, which wait
    in the queue in the order submitted, each with a fresh response channel
    of capacity one; the send of one more request blocks, so that [Submit]
    can then only return its timeout error. *)
Theorem Submit_accepts_twice_the_size size paths path :
  (size < 2 ^ 62)%Z -> Z.of_nat (length paths) = (2 * Z.max 1 size)%Z ->
  exists p p',
    NewWorkerPool size = Ok p /\
    foldl (fun r path => let* q := r in let* s := Submit q path SendRequest in Ok s.1)
      (Ok p) paths = Ok p' /\
    buf (requests p') = new_request <$> paths /\
    Submit p' path SendRequest = Blocked /\
    Submit p' path TimedOut = Ok (p', None).
Proof.
  intros Hs Hl. rewrite NewWorkerPool_closed_form by done.
  eexists. edestruct (Submit_many paths) as (p' & Hf & Hr & _); cycle 2.
  - exists p'. split; [reflexivity|]. split; [exact Hf|].
    rewrite Hr. simpl. split; [done|]. split; [|done].
    unfold Submit, send, bind. rewrite Hr. simpl.
    destruct (decide _) as [Hlt|]; [|done].
    rewrite length_fmap in Hlt. lia.
  - done.
  - simpl. lia.
Qed.

Lemma Submit_accepts_twice_the_size_witness :
  exists p p',
    NewWorkerPool 1 = Ok p /\
    foldl (fun r path => let* q := r in let* s := Submit q path SendRequest in Ok s.1)
      (Ok p) ["a.txt"; "b.txt"] = Ok p' /\
    buf (requests p') = new_request <$> ["a.txt"; "b.txt"] /\
    Submit p' "c.txt" SendRequest = Blocked /\
    Submit p' "c.txt" TimedOut = Ok (p', None).
Proof.
  apply (Submit_accepts_twice_the_size 1 ["a.txt"; "b.txt"] "c.txt"); vm_compute; done.
Defined.

Lemma worker_round_serves process id p path rest result err :
  buf (requests p) = new_request path :: rest ->
  closed (errors p) = false ->
  process path = Returns result err ->
  worker_round process false id p =
    Ok (MkWorkerPool (size p)
          (MkChan rest (cap (requests p)) (closed (requests p)))
          (done p) (errors_after process (errors p) [path]),
        Served (MkChan [result] 1 true)).
Proof.
  intros Hb Hc Hp. unfold worker_round, recv_ok, bind. rewrite Hb. simpl.
  unfold errors_after, error_of. simpl. rewrite Hp.
  destruct err as [e|]; simpl; [|reflexivity].
  destruct (decide (length (buf (errors p)) < cap (errors p))) as [Hr|Hf].
  - rewrite WorkerPoolFacts.try_send_room by done. reflexivity.
  - rewrite WorkerPoolFacts.try_send_full by (done || lia). reflexivity.
Qed.

Lemma errors_after_cons process c path paths :
  errors_after process c (path :: paths) =
    errors_after process (errors_after process c [path]) paths.
Proof. reflexivity. Qed.

Lemma errors_after_one process c path :
  errors_after process c [path] =
    match error_of process path with
    | Some e =>
        if decide (length (buf c) < cap c)
        then MkChan (buf c ++ [e]) (cap c) false else c
    | None => c
    end.
Proof. reflexivity. Qed.

Lemma errors_after_open process paths : forall c,
  closed c = false -> closed (errors_after process c paths) = false /\
  cap (errors_after process c paths) = cap c.
Proof.
  induction paths as [|path paths IH]; intros c Hc; [done|].
  rewrite errors_after_cons.
  assert (closed (errors_after process c [path]) = false /\
          cap (errors_after process c [path]) = cap c) as [H1 H2].
  { rewrite errors_after_one. repeat case_match; done. }
  destruct (IH _ H1) as [H3 H4]. split; congruence.
Qed.

Lemma errors_after_buf process paths : forall c,
  length (buf c) <= cap c ->
  buf (errors_after process c paths)
  = take (cap c) (buf c ++ omap (error_of process) paths).
Proof.
  induction paths as [|path paths IH]; intros c Hl.
  - simpl. rewrite app_nil_r, take_ge by lia. done.
  - rewrite errors_after_cons, errors_after_one. simpl omap.
    destruct (error_of process path) as [e|]; [|apply IH; done].
    destruct (decide _) as [Hr|Hf].
    + rewrite IH by (simpl; rewrite length_app; simpl; lia).
      simpl. rewrite <- app_assoc. done.
    + rewrite IH by done.
      rewrite !take_app_le by lia. done.
Qed.

Lemma worker_loop_serves process ctx id paths : forall fuel p served rest,
  buf (requests p) = (new_request <$> paths) ++ rest ->
  closed (errors p) = false ->
  (forall k, k < length paths -> ctx (length served + k) = false) ->
  Forall (fun path => process path <> Panics) paths ->
  worker_loop (length paths + fuel) process ctx id p served =
    worker_loop fuel process ctx id
      (MkWorkerPool (size p) (MkChan rest (cap (requests p)) (closed (requests p)))
         (done p) (errors_after process (errors p) paths))
      (served ++ omap (response_to process) paths) /\
  length (omap (response_to process) paths) = length paths.
Proof.
  induction paths as [|path paths IH]; intros fuel p served rest Hb Hc Hctx HF.
  - simpl in *. rewrite app_nil_r. split; [|done].
    f_equal. destruct p as [? [] ? ?]; simpl in *; subst; done.
  - inversion HF as [|? ? Hp HF']; subst.
    destruct (process path) as [result err|] eqn:Hpath; [|done].
    pose proof (Hctx 0 ltac:(simpl; lia)) as H0. rewrite Nat.add_0_r in H0.
    simpl length. simpl plus. cbn [worker_loop]. rewrite H0.
    rewrite (worker_round_serves process id p path ((new_request <$> paths) ++ rest)
               result err) by done.
    destruct (errors_after_open process [path] (errors p) Hc) as (Ho & Hcap).
    assert (Hctx' : forall k, k < length paths ->
              ctx (length (served ++ [MkChan [result] 1 true]) + k) = false).
    { intros k Hk. rewrite length_app. simpl.
      replace (length served + 1 + k) with (length served + S k) by lia.
      apply Hctx. simpl. lia. }
    destruct (IH fuel
                (MkWorkerPool (size p)
                   (MkChan ((new_request <$> paths) ++ rest) (cap (requests p))
                      (closed (requests p)))
                   (done p) (errors_after process (errors p) [path]))
                (served ++ [MkChan [result] 1 true]) rest eq_refl Ho Hctx' HF')
      as (Hloop & Hlen).
    rewrite Hloop. cbn [size requests done errors cap closed].
    rewrite <- errors_after_cons. cbn [omap list_omap].
    unfold response_to at 2 4. rewrite Hpath.
    rewrite <- app_assoc. split; [reflexivity|].
    unfold response_to. rewrite Hpath. simpl. fold (response_to process).
    change (list_omap string (chan ProcessResult) (response_to process) paths)
      with (omap (response_to process) paths). lia.
Qed.

(** Graceful drain. [Stop] closes the request queue; a worker whose context
    is not cancelled and whose processor does not panic then serves every
    queued request, in order: each response channel holds the result and is
    closed; the errors go to the error channel as far as it has room, the
    others are dropped; the worker returns, and [Stop] returns from its wait
    if this was worker 0 (which closes [done]), and keeps waiting if not. *)
Theorem worker_drains_the_queue_after_Stop process id p paths :
  closed (requests p) = false -> buf (requests p) = new_request <$> paths ->
  closed (done p) = false -> buf (done p) = [] ->
  closed (errors p) = false -> length (buf (errors p)) <= cap (errors p) ->
  Forall (fun path => process path <> Panics) paths ->
  exists p1 p2,
    Stop_close p = Ok p1 /\
    worker_loop (S (length paths)) process (fun _ => false) id p1 []
      = Some (Ok (p2, omap (response_to process) paths)) /\
    length (omap (response_to process) paths) = length paths /\
    buf (requests p2) = [] /\
    buf (errors p2) = take (cap (errors p)) (buf (errors p) ++ omap (error_of process) paths) /\
    Stop_wait p2 = if (id =? 0)%Z then Ok () else Blocked.
Proof.
  intros Hrc Hrb Hdc Hdb Hec Hel HF.
  set (p1 := MkWorkerPool (size p) (MkChan (buf (requests p)) (cap (requests p)) true)
               (done p) (errors p)).
  assert (Hb1 : buf (requests p1) = (new_request <$> paths) ++ [])
    by (rewrite app_nil_r; exact Hrb).
  destruct (worker_loop_serves process (fun _ => false) id paths 1 p1 [] [] Hb1 Hec
              (fun _ _ => eq_refl) HF) as (Hloop & Hlen).
  exists p1. replace (S (length paths)) with (length paths + 1) by lia.
  rewrite Hloop. simpl.
  unfold worker_round, recv_ok, bind. simpl.
  unfold deferred, close, bind. simpl. rewrite Hdc.
  destruct (id =? 0)%Z eqn:Hid; simpl; eexists;
    (split; [unfold Stop_close, close, bind; rewrite Hrc; reflexivity|]);
    (split; [reflexivity|]); simpl; rewrite errors_after_buf by done;
    split_and!; try done; unfold Stop_wait, recv_ok, bind; simpl; rewrite ?Hdb, ?Hdc; done.
Qed.

(** Cancellation. When the context is done, the worker has already taken
    the next request from the queue: it returns without answering it, so
    that the response channel of this request is never written nor closed;
    the requests behind it stay in the queue. *)
Theorem worker_drops_a_request_on_cancellation process ctx id p served lost rest :
  buf (requests p) = (new_request <$> served) ++ new_request lost :: (new_request <$> rest) ->
  closed (errors p) = false -> (id =? 0)%Z = false ->
  (forall k, k < length served -> ctx k = false) -> ctx (length served) = true ->
  Forall (fun path => process path <> Panics) served ->
  exists p',
    worker_loop (S (length served)) process ctx id p []
      = Some (Ok (p', omap (response_to process) served)) /\
    length (omap (response_to process) served) = length served /\
    buf (requests p') = new_request <$> rest.
Proof.
  intros Hb Hc Hid Hctx Hk HF.
  destruct (worker_loop_serves process ctx id served 1 p []
              (new_request lost :: (new_request <$> rest)) Hb Hc Hctx HF)
    as (Hloop & Hlen).
  replace (S (length served)) with (length served + 1) by lia.
  rewrite Hloop. simpl. rewrite Hlen, Hk.
  unfold worker_round, recv_ok, bind. simpl.
  unfold deferred. rewrite Hid. simpl.
  eexists. split; [reflexivity|]. done.
Qed.

Lemma worker_drains_the_queue_after_Stop_witness :
  exists p1 p2,
    Stop_close (sample_pool ["missing.txt"; "a.txt"]) = Ok p1 /\
    worker_loop 3 sample_processor (fun _ => false) 0 p1 []
      = Some (Ok (p2, omap (response_to sample_processor) ["missing.txt"; "a.txt"])) /\
    length (omap (response_to sample_processor) ["missing.txt"; "a.txt"]) = 2 /\
    buf (requests p2) = [] /\
    buf (errors p2) = [ProcessError "open"] /\
    Stop_wait p2 = Ok ().
Proof.
  apply (worker_drains_the_queue_after_Stop sample_processor 0
           (sample_pool ["missing.txt"; "a.txt"]) ["missing.txt"; "a.txt"]);
    try (vm_compute; done).
  all: try (repeat constructor; vm_compute; discriminate).
  all: vm_compute; lia.
Defined.

Lemma worker_drops_a_request_on_cancellation_witness :
  exists p',
    worker_loop 2 sample_processor (fun k => bool_decide (k = 1)) 1
      (sample_pool ["a.txt"; "b.txt"; "c.txt"]) []
      = Some (Ok (p', omap (response_to sample_processor) ["a.txt"])) /\
    length (omap (response_to sample_processor) ["a.txt"]) = 1 /\
    buf (requests p') = new_request <$> ["c.txt"].
Proof.
  apply (worker_drops_a_request_on_cancellation sample_processor
           (fun k => bool_decide (k = 1)) 1
           (sample_pool ["a.txt"; "b.txt"; "c.txt"]) ["a.txt"] "b.txt" ["c.txt"]);
    try (vm_compute; done).
  - intros k Hk. simpl in Hk. destruct k; [done|lia].
  - repeat constructor; vm_compute; discriminate.
Defined.

End WorkerLoopFacts.

(** ** readLines *)

Module ReadLinesFacts.
Import processor.

Lemma wrap64_add_twice a b c : wrap64 (wrap64 (a + b) + c) = wrap64 (a + (b + c)).
Proof. rewrite (Z.add_comm _ c), wrap64_add_r. f_equal. lia. Qed.

Lemma wrap64_idem x : wrap64 (wrap64 x) = wrap64 x.
Proof. pose proof (wrap64_add_r 0 x) as H. rewrite !Z.add_0_l in H. exact H. Qed.

Lemma scan_bytes_nbytes l : forall s n,
  foldl scan_byte (MkScan (lines s) (words s) n (inWord s)) l
  = MkScan (lines (foldl scan_byte s l)) (words (foldl scan_byte s l)) n
      (inWord (foldl scan_byte s l)).
Proof.
  induction l as [|b l IH]; intros s n; [done|].
  simpl. rewrite <- (IH (scan_byte s b) n). f_equal.
  unfold scan_byte. simpl. repeat case_match; done.
Qed.

(** Scanning the chunks one after the other is scanning their
    concatenation. *)
Lemma scan_chunks_concat chunks : forall s,
  wrap64 (nbytes s) = nbytes s ->
  foldl scan_chunk s chunks
  = MkScan (lines (foldl scan_byte s (concat chunks)))
      (words (foldl scan_byte s (concat chunks)))
      (wrap64 (nbytes s + Z.of_nat (length (concat chunks))))
      (inWord (foldl scan_byte s (concat chunks))).
Proof.
  induction chunks as [|c chunks IH]; intros s Hs.
  - simpl. rewrite Z.add_0_r, Hs. destruct s; done.
  - set (s1 := foldl scan_byte s c).
    assert (Hc : scan_chunk s c
                 = MkScan (lines s1) (words s1)
                     (wrap64 (nbytes s + Z.of_nat (length c))) (inWord s1))
      by (unfold scan_chunk; apply scan_bytes_nbytes).
    simpl. rewrite IH.
    + rewrite Hc, (scan_bytes_nbytes (concat chunks) s1). simpl.
      rewrite foldl_app. fold s1.
      rewrite length_app, Nat2Z.inj_add, wrap64_add_twice. done.
    + rewrite Hc. simpl. apply wrap64_idem.
Qed.

(** The counts depend on the content only, not on how the reader cuts it
    into chunks: the buffer size does not matter, so [TextProcessor]
    (4096 bytes) and [BaseProcessor] (its [bufferSize]) count alike. *)
Theorem readLines_ignores_chunking chunks1 chunks2 fin :
  concat chunks1 = concat chunks2 ->
  readLines chunks1 fin = readLines chunks2 fin.
Proof.
  intros H. unfold readLines.
  rewrite !scan_chunks_concat by reflexivity. rewrite H. reflexivity.
Qed.

Lemma readLines_ignores_chunking_witness :
  readLines [[Byte.x61; Byte.x20]; [Byte.x62; Byte.x0a]] EOF
  = readLines [[Byte.x61]; []; [Byte.x20; Byte.x62; Byte.x0a]] EOF.
Proof. apply readLines_ignores_chunking. reflexivity. Defined.

Lemma newlines_cons b l :
  newlines (b :: l) = ((if Byte.eqb b Byte.x0a then 1 else 0) + newlines l)%Z.
Proof. unfold newlines. simpl. destruct (Byte.eqb b Byte.x0a); simpl; lia. Qed.

Lemma word_starts_after_cons prev b l :
  word_starts_after prev (b :: l)
  = ((if is_blank prev && negb (is_blank b) then 1 else 0) + word_starts_after b l)%Z.
Proof.
  unfold word_starts_after. simpl.
  destruct (is_blank prev && negb (is_blank b)); simpl length; lia.
Qed.

Lemma newlines_nonneg l : (0 <= newlines l)%Z.
Proof. unfold newlines. lia. Qed.

Lemma word_starts_after_nonneg p l : (0 <= word_starts_after p l)%Z.
Proof. unfold word_starts_after. lia. Qed.

Lemma newline_is_blank b : Byte.eqb b Byte.x0a = true -> is_blank b = true.
Proof. intros H. unfold is_blank. rewrite H. destruct (Byte.eqb b Byte.x20); done. Qed.

Lemma newlines_le l : (newlines l <= Z.of_nat (length l))%Z.
Proof.
  unfold newlines. pose proof (List.filter_length_le (fun b => Byte.eqb b Byte.x0a) l). lia.
Qed.

Lemma word_starts_after_le p l : (word_starts_after p l <= Z.of_nat (length l))%Z.
Proof.
  unfold word_starts_after.
  pose proof (List.filter_length_le
                (fun pb : Byte.byte * Byte.byte => is_blank pb.1 && negb (is_blank pb.2))
                (zip (p :: l) l)) as H.
  rewrite length_zip_with in H. cbn [length] in H. lia.
Qed.

Lemma last_cons_default {A} (prev b : A) l :
  default prev (last (b :: l)) = default b (last l).
Proof. destruct l as [|c l]; [done|]. rewrite last_cons_cons. destruct (last (c :: l)) eqn:E; [done|]. by apply last_None in E. Qed.

(** The scan of [content] from the state [s], [prev] being the byte read
    last. *)
Lemma scan_bytes_counts content : forall s prev,
  inWord s = negb (is_blank prev) ->
  wrap64 (lines s) = lines s -> wrap64 (words s) = words s ->
  lines (foldl scan_byte s content) = wrap64 (lines s + newlines content) /\
  words (foldl scan_byte s content) = wrap64 (words s + word_starts_after prev content) /\
  inWord (foldl scan_byte s content) = negb (is_blank (default prev (last content))).
Proof.
  induction content as [|b l IH]; intros s prev Hs Hl Hw.
  - simpl. unfold newlines, word_starts_after. simpl. rewrite !Z.add_0_r. done.
  - simpl foldl. rewrite newlines_cons, word_starts_after_cons, last_cons_default.
    destruct (IH (scan_byte s b) b) as (H1 & H2 & H3).
    + unfold scan_byte. repeat case_match; simpl; done.
    + unfold scan_byte. repeat case_match; simpl; auto using wrap64_idem.
    + unfold scan_byte. repeat case_match; simpl; auto using wrap64_idem.
    + rewrite H1, H2, H3. split_and!; [| |done].
      * unfold scan_byte. destruct (Byte.eqb b Byte.x0a) eqn:E.
        -- rewrite (newline_is_blank b E). simpl. apply wrap64_add_twice.
        -- repeat case_match; simpl; f_equal; lia.
      * unfold scan_byte. rewrite Hs.
        destruct (is_blank b), (is_blank prev); simpl;
          rewrite ?wrap64_add_twice; f_equal; lia.
Qed.

(** What [readLines] counts, for a content shorter than 2^63 - 1 bytes:
    the bytes; the words, that is the maximal runs of bytes other than space,
    newline and tab; and the newline bytes, plus one at the end of the input
    if the content ends with a space, a newline or a tab (and not if it ends
    inside a word). A read error returns the counts so far, without that last
    line. *)
Theorem readLines_counts chunks fin content :
  concat chunks = content -> (Z.of_nat (length content) < 2 ^ 63 - 1)%Z ->
  readLines chunks fin =
    match fin with
    | EOF =>
        ((newlines content + if ends_blank content then 1 else 0)%Z,
         word_starts content, Z.of_nat (length content), None)
    | ReadError e =>
        (newlines content, word_starts content, Z.of_nat (length content), Some e)
    end.
Proof.
  intros Hc Hlen. unfold readLines.
  rewrite scan_chunks_concat by reflexivity. rewrite Hc.
  destruct (scan_bytes_counts content (MkScan 0 0 0 false) Byte.x20)
    as (H1 & H2 & H3); try reflexivity.
  simpl lines in *. simpl words in *. simpl nbytes. simpl inWord in *.
  rewrite H1, H2, H3. rewrite !Z.add_0_l.
  pose proof (newlines_le content). pose proof (newlines_nonneg content).
  pose proof (word_starts_after_le Byte.x20 content).
  pose proof (word_starts_after_nonneg Byte.x20 content).
  rewrite (wrap64_small (newlines content)),
    (wrap64_small (word_starts_after Byte.x20 content)),
    (wrap64_small (Z.of_nat (length content))) by lia.
  fold (word_starts content).
  destruct fin as [|e]; [|reflexivity].
  rewrite negb_involutive. unfold ends_blank.
  destruct content as [|b l]; [reflexivity|].
  assert ((Z.of_nat (length (b :: l)) >? 0)%Z = true) as ->
    by (rewrite Z.gtb_ltb; apply Z.ltb_lt; cbn [length]; lia).
  destruct (last (b :: l)) as [c|] eqn:E.
  - simpl default. simpl andb. destruct (is_blank c); [|by rewrite Z.add_0_r].
    rewrite wrap64_small by lia. reflexivity.
  - by apply last_None in E.
Qed.

Lemma readLines_counts_witness :
  readLines [[Byte.x61; Byte.x20]; [Byte.x62; Byte.x0a]] EOF = (2, 2, 4, None)%Z.
Proof.
  apply (readLines_counts [[Byte.x61; Byte.x20]; [Byte.x62; Byte.x0a]] EOF
           [Byte.x61; Byte.x20; Byte.x62; Byte.x0a]).
  - reflexivity.
  - vm_compute. reflexivity.
Defined.

End ReadLinesFacts.
